(** * Structural-features boundary detection (Serra et al.), [algorithms/sf/segmenter.py]

    A shallow embedding of the SF segmenter: time-delay embedding, the
    circular shift into a time-lag matrix, the novelty curve, adaptive
    peak picking and the assembly of boundary times in [Segmenter.process].

    Conventions.
    - A numpy [float] is an exact rational ([Q]); rounding, infinities and
      NaN are not represented.  The properties below depend on the order
      of the values and on exact reindexing; the normalization of the
      novelty curve is the one statement about arithmetic, and it is about
      exact arithmetic.
    - A Python exception is the [Raise] branch of [result].
    - A 2-D array is its list of rows plus its column count, so that the
      shape [(0, d)] exists.
    - Library routines (scipy, librosa) are the fields of the class
      [Library]; their shape contracts are [library_contract].
    - [_preprocess] and [_postprocess] belong to [SegmenterInterface], which
      is not among the sources: the values of the first are the arguments
      of [process], the second is a field of the class of that name, and
      [postprocess_spec] is that field as the spec has it.

    The remaining routines of the module, the C-NMF and OLDA segmenters
    ([Cnmf3], [Olda]) and the id translation of [plotting.py] ([Plotting])
    follow the same conventions; a [while True] loop takes a number of
    rounds and yields [None] when they are used up. *)

From Stdlib Require Import List ZArith QArith Qround Qabs Qminmax Lia Lqa Bool Sorted PeanoNat.
From Stdlib Require String.
Import ListNotations.

Set Implicit Arguments.

(** ** Exceptions *)

Inductive exn : Type :=
| IndexError
| ValueError.

Inductive result (A : Type) : Type :=
| Ok (a : A)
| Raise (e : exn).

Arguments Ok {A} a.
Arguments Raise {A} e.

Definition bind {A B : Type} (c : result A) (k : A -> result B) : result B :=
  match c with
  | Ok a => k a
  | Raise e => Raise e
  end.

Notation "x <- c ;; k" := (bind c (fun x => k))
  (at level 61, c at next level, right associativity).

(** [for x in xs: ys.append(f x)], stopping at the first exception. *)
Fixpoint mapM {A B : Type} (f : A -> result B) (xs : list A) : result (list B) :=
  match xs with
  | [] => Ok []
  | x :: xs' => y <- f x ;; ys <- mapM f xs' ;; Ok (y :: ys)
  end.

(** [k] successive applications of a fallible step. *)
Fixpoint iterM {A : Type} (k : nat) (f : A -> result A) (a : A) : result A :=
  match k with
  | O => Ok a
  | S k' => b <- f a ;; iterM k' f b
  end.

(** ** numpy arrays *)

Module Np.

(** [l[k]] for a Python integer [k]: negative indices count from the end. *)
Definition index {A : Type} (l : list A) (k : Z) : result A :=
  let len := Z.of_nat (length l) in
  let k' := (if k <? 0 then k + len else k)%Z in
  if ((0 <=? k') && (k' <? len))%Z
  then match nth_error l (Z.to_nat k') with
       | Some a => Ok a
       | None => Raise IndexError
       end
  else Raise IndexError.

(** A slice bound, clipped as Python does. *)
Definition clip (len k : Z) : Z :=
  (if k <? 0 then Z.max 0 (k + len) else Z.min k len)%Z.

(** [l[a:b]]. *)
Definition slice {A : Type} (l : list A) (a b : Z) : list A :=
  let len := Z.of_nat (length l) in
  let a' := Z.to_nat (clip len a) in
  let b' := Z.to_nat (clip len b) in
  firstn (b' - a') (skipn a' l).

(** [l[:b]]. *)
Definition slice_to {A : Type} (l : list A) (b : Z) : list A :=
  slice l 0 b.

Record array2 : Type := mk2 { ncols : nat; rows : list (list Q) }.

Definition shape0 (X : array2) : nat := length (rows X).
Definition shape1 (X : array2) : nat := ncols X.

(** Every row has the declared width. *)
Definition wf (X : array2) : Prop :=
  Forall (fun r => length r = ncols X) (rows X).

Definition square (X : array2) : Prop :=
  wf X /\ ncols X = shape0 X.

(** [X[i, j]] for indices known to be non-negative. *)
Definition get2 (X : array2) (i j : nat) : result Q :=
  match nth_error (rows X) i with
  | Some r => match nth_error r j with
              | Some v => Ok v
              | None => Raise IndexError
              end
  | None => Raise IndexError
  end.

(** [X[:, j]] read as a list; only used with [j < ncols X]. *)
Definition col (X : array2) (j : nat) : list Q :=
  map (fun r => nth j r 0) (rows X).

(** [X.T]. *)
Definition transpose (X : array2) : array2 :=
  mk2 (shape0 X) (map (col X) (seq 0 (ncols X))).

(** The value stored by [Y[i, :] = v] in a row of width [w]: [v] itself,
    a one-element [v] broadcast, or a shape mismatch. *)
Definition assign_row (w : nat) (v : list Q) : result (list Q) :=
  if length v =? w then Ok v
  else match v with
       | [x] => Ok (repeat x w)
       | _ => Raise ValueError
       end.

(** [a.min()] and [a.max()]; numpy refuses the empty array. *)
Definition amin (a : list Q) : result Q :=
  match a with
  | [] => Raise ValueError
  | x :: t => Ok (fold_left Qmin t x)
  end.

Definition amax (a : list Q) : result Q :=
  match a with
  | [] => Raise ValueError
  | x :: t => Ok (fold_left Qmax t x)
  end.

(** [a.mean()]; on the empty array numpy only warns (and yields NaN),
    here the quotient by zero. *)
Definition mean (a : list Q) : Q :=
  fold_left Qplus a 0 / inject_Z (Z.of_nat (length a)).

(** [int(x)] for a float [x]: truncation toward zero. *)
Definition int (x : Q) : Z := Z.quot (Qnum x) (Zpos (Qden x)).

(** [x % 1] for a float [x]: the fractional part, in [0, 1). *)
Definition mod1 (x : Q) : Q := x - inject_Z (Qfloor x).

(** [a < b] on floats. *)
Definition ltb (a b : Q) : bool := negb (Qle_bool b a).

End Np.

Import Np.

(** ** Lag transform *)

(** [circular_shift(X)], lines 99-106: [L] is allocated with the shape of
    [X] and row [i] receives [[X[(i + j) % N, j] for j in xrange(N)]]. *)
Definition circular_shift (X : array2) : result array2 :=
  let N := shape0 X in
  L <- mapM (fun i =>
               v <- mapM (fun j => get2 X ((i + j) mod N) j) (seq 0 N) ;;
               assign_row (ncols X) v)
            (seq 0 N) ;;
  Ok (mk2 (ncols X) L).

(** ** Library routines

    The numerical routines of scipy and librosa that the module calls.
    They are not part of the repository; the development is parametric in
    them. *)
Class Library : Type := {
  (** [scipy.spatial.distance.euclidean(u, v)] *)
  distance_euclidean : list Q -> list Q -> Q;
  (** [scipy.ndimage.filters.median_filter(a, size=L)] on a 1-D array *)
  filters_median_filter : list Q -> Z -> list Q;
  (** [scipy.ndimage.filters.gaussian_filter(a, sigma=s)] on a 1-D array *)
  filters_gaussian_filter : list Q -> Q -> list Q;
  (** [librosa.segment.recurrence_matrix(data, k=k, width=0,
      metric="seuclidean", sym=True).astype(np.float32)] *)
  librosa_recurrence_matrix : array2 -> Q -> array2
}.

(** The part of [SegmenterInterface] that [process] calls after it has
    assembled its estimates; the interface module is not among the sources. *)
Class SegmenterInterface : Type := {
  _postprocess : list Q -> list Q -> result (list Q * list Q)
}.

Section Segmenter.

Context {lib : Library}.

(** ** Structure filter *)

(** [gaussian_filter(X, M, axis)], lines 38-45.  With [axis == 0] every
    row is replaced by its filtered version, with [axis == 1] every
    column.  For the axes -1 and -2 [X.shape[axis]] exists, the loop runs
    and neither test succeeds: [X] is returned as it came.  [X.shape[axis]]
    fails for any other axis of a 2-D array. *)
Definition gaussian_filter (X : array2) (M : Q) (axis : Z) : result array2 :=
  match axis with
  | 0%Z =>
      rs <- mapM (fun r => assign_row (ncols X) (filters_gaussian_filter r (M / 2)))
                 (rows X) ;;
      Ok (mk2 (ncols X) rs)
  | 1%Z =>
      cs <- mapM (fun j => assign_row (shape0 X)
                             (filters_gaussian_filter (col X j) (M / 2)))
                 (seq 0 (ncols X)) ;;
      Ok (transpose (mk2 (shape0 X) cs))
  | (-1)%Z | (-2)%Z => Ok X
  | _ => Raise IndexError
  end.

(** ** Novelty curve *)

(** [compute_nc(X)], lines 65-77.  [nc] starts as [N] zeros, its first
    [N - 1] entries receive the distances of successive rows, then it is
    shifted by [|min|] and divided by its maximum. *)
Definition compute_nc (X : array2) : result (list Q) :=
  let N := shape0 X in
  d <- mapM (fun i =>
               match nth_error (rows X) i, nth_error (rows X) (i + 1) with
               | Some u, Some v => Ok (distance_euclidean u v)
               | _, _ => Raise IndexError
               end)
            (seq 0 (N - 1)) ;;
  let nc := d ++ repeat 0 (N - (N - 1)) in
  lo <- amin nc ;;
  let nc := map (fun x => x + Qabs lo) nc in
  hi <- amax nc ;;
  Ok (map (fun x => x / hi) nc).

(** ** Peak picking *)

(** The loop of [pick_peaks], lines 90-95, over the remaining indices. *)
Fixpoint pick_loop (nc th : list Q) (idxs : list nat) (peaks : list nat)
  : result (list nat) :=
  match idxs with
  | [] => Ok peaks
  | i :: idxs' =>
      match nth_error nc (i - 1), nth_error nc i, nth_error nc (i + 1) with
      | Some a, Some b, Some c =>
          if ltb a b && ltb c b then
            match nth_error th i with
            | Some t =>
                if ltb t b then pick_loop nc th idxs' (peaks ++ [i])
                else pick_loop nc th idxs' peaks
            | None => Raise IndexError
            end
          else pick_loop nc th idxs' peaks
      | _, _, _ => Raise IndexError
      end
  end.

(** The adaptive threshold of lines 82-83. *)
Definition threshold (nc : list Q) (L : Z) (offset_denom : Q) : list Q :=
  let offset := mean nc * offset_denom in
  map (fun x => x + offset) (filters_median_filter nc L).

(** [pick_peaks(nc, L, offset_denom)], lines 80-96. *)
Definition pick_peaks (nc : list Q) (L : Z) (offset_denom : Q) : result (list nat) :=
  let th := threshold nc L offset_denom in
  pick_loop nc th (seq 1 (length nc - 1 - 1)) [].

(** ** Embedding *)

(** [embedded_space(X, m, tau)], lines 109-119; [tau] is never read.
    [np.zeros] refuses a negative dimension; row [i] is the flattened
    block [X[i:i+int(m), :]] followed by [X[i+int(m), :rem]].  The products
    [X.shape[1] * m] and [(m % 1) * X.shape[1]] are exact here; the code
    computes them in floating point, which is the same whenever they need
    no rounding (a whole m, or m = num / 2^j with D * num below 2^53). *)
Definition embedded_space (X : array2) (m : Q) : result array2 :=
  let N := (Z.of_nat (shape0 X) - Qceiling m)%Z in
  let w := Qceiling (inject_Z (Z.of_nat (shape1 X)) * m) in
  if ((N <? 0) || (w <? 0))%Z then Raise ValueError
  else
    Y <- mapM (fun i =>
                 let rem := int (mod1 m * inject_Z (Z.of_nat (shape1 X))) in
                 let block := concat (slice (rows X) (Z.of_nat i) (Z.of_nat i + int m)) in
                 r <- index (rows X) (Z.of_nat i + int m) ;;
                 assign_row (Z.to_nat w) (block ++ slice_to r rem))
              (seq 0 (Z.to_nat N)) ;;
    Ok (mk2 (Z.to_nat w) Y).

(** ** Boundary assembly *)

Record config : Type := {
  Mp_adaptive : Z;
  offset_thres : Q;
  M_gaussian : Q;
  m_embedded : Q;
  k_nearest : Q
}.

(** Lines 146-180 of [process]: the peaks of the novelty curve, re-aligned,
    or nothing for a track of at most 20 frames.  [L.T] is a view of [L]:
    the first filter writes through it, so the second filter reads the
    result of the first. *)
Definition est_bounds (cfg : config) (F : array2) : result (list Z) :=
  if (20 <? shape0 F)%nat then
    E <- embedded_space F (m_embedded cfg) ;;
    let R := librosa_recurrence_matrix
               (transpose E) (k_nearest cfg * inject_Z (Z.of_nat (shape0 F))) in
    L <- circular_shift R ;;
    SF <- gaussian_filter (transpose L) (M_gaussian cfg) 1%Z ;;
    SF <- gaussian_filter SF 1 0%Z ;;
    nc <- compute_nc SF ;;
    peaks <- pick_peaks nc (Mp_adaptive cfg) (offset_thres cfg) ;;
    Ok (map (fun p => (Z.of_nat p + Qceiling (m_embedded cfg / 2))%Z) peaks)
  else Ok [].

(** Lines 132-191 of [process], on the values that [_preprocess] hands
    over: the boundary times and the labels before [_postprocess]. *)
Definition process_estimates (cfg : config) (F : array2) (frame_times : list Q)
           (dur : Q) : result (list Q * list Q) :=
  bs <- est_bounds cfg F ;;
  let bound_idxs := [0%Z] ++ bs ++ [(Z.of_nat (length frame_times) - 1)%Z] in
  ts <- mapM (index frame_times) bound_idxs ;;
  let est_times := [0] ++ ts ++ [dur] in
  let est_labels := repeat (1 * -(1)) (length est_times - 1) in
  Ok (est_times, est_labels).

(** [Segmenter.process], lines 123-206. *)
Definition process {itf : SegmenterInterface} (cfg : config) (F : array2)
           (frame_times : list Q) (dur : Q) : result (list Q * list Q) :=
  e <- process_estimates cfg F frame_times dur ;;
  _postprocess (fst e) (snd e).

End Segmenter.

(** ** A reference instance of the library

    Exact stand-ins with the shapes of the library routines, used to run
    the pipeline on concrete inputs: the city-block distance (equal to the
    Euclidean one whenever two vectors differ in at most one coordinate), a
    moving median and a three-tap smoothing with reflected edges, and the
    recurrence relation "equal columns, off the diagonal". *)

Definition cityblock (u v : list Q) : Q :=
  fold_right (fun p acc => Qabs (fst p - snd p) + acc) 0 (combine u v).

Definition reflect_nth (a : list Q) (k : Z) : Q :=
  let n := Z.of_nat (length a) in
  let r := (k mod (2 * n))%Z in
  nth (Z.to_nat (if (r <? n)%Z then r else (2 * n - 1 - r)%Z)) a 0.

Definition window (a : list Q) (size i : nat) : list Q :=
  map (fun k => reflect_nth a (Z.of_nat i - Z.of_nat (size / 2) + Z.of_nat k))
      (seq 0 size).

Fixpoint insert_sorted (x : Q) (l : list Q) : list Q :=
  match l with
  | [] => [x]
  | y :: t => if Qle_bool x y then x :: l else y :: insert_sorted x t
  end.

Definition moving_median (a : list Q) (size : Z) : list Q :=
  map (fun i => nth (Z.to_nat size / 2)
                    (fold_right insert_sorted [] (window a (Z.to_nat size) i)) 0)
      (seq 0 (length a)).

Definition smooth3 (a : list Q) (sigma : Q) : list Q :=
  map (fun i => (reflect_nth a (Z.of_nat i - 1) + 2 * reflect_nth a (Z.of_nat i)
                 + reflect_nth a (Z.of_nat i + 1)) / 4)
      (seq 0 (length a)).

Definition equal_columns (data : array2) (k : Q) : array2 :=
  let n := ncols data in
  mk2 n (map (fun i =>
                map (fun j =>
                       if (i =? j)%nat then 0
                       else if forallb (fun r => Qeq_bool (nth i r 0) (nth j r 0))
                                       (rows data)
                            then 1 else 0)
                    (seq 0 n))
             (seq 0 n)).

#[local] Instance reference_library : Library := {|
  distance_euclidean := cityblock;
  filters_median_filter := moving_median;
  filters_gaussian_filter := smooth3;
  librosa_recurrence_matrix := equal_columns
|}.

(** [_postprocess] as the identity: the estimates as [process] assembles
    them. *)
#[local] Instance raw_estimates : SegmenterInterface := {|
  _postprocess := fun t l => Ok (t, l)
|}.


(** A single-column feature matrix. *)
Definition column (xs : list Q) : array2 := mk2 1 (map (fun x => [x]) xs).

(** Frame times [t0, t0 + 1, ...]. *)
Definition ramp (t0 : Q) (n : nat) : list Q :=
  map (fun i => t0 + inject_Z (Z.of_nat i)) (seq 0 n).

Definition cfg0 : config :=
  {| Mp_adaptive := 3; offset_thres := 1 # 10; M_gaussian := 2;
     m_embedded := 2; k_nearest := 1 # 10 |}.

Definition F10 : array2 := column [0; 0; 0; 0; 0; 1; 1; 1; 1; 1].

Definition F24 : array2 :=
  column [0;0;0;0;0;0;0;0; 1;1;1;1;1;1;1;1; 0;0;0;0;0;0;0;0].

(** ** Contracts of the inputs *)

(** What the module relies on from the library: the recurrence matrix of
    [t] frames (columns of its argument) is [t] x [t], and the filters keep
    the length of a 1-D array. *)
Record library_contract (lib : Library) : Prop := {
  recurrence_square :
    forall data k,
      square (librosa_recurrence_matrix data k) /\
      shape0 (librosa_recurrence_matrix data k) = ncols data;
  gaussian_length :
    forall a s, length (filters_gaussian_filter a s) = length a;
  median_length :
    forall a L, length (filters_median_filter a L) = length a
}.

(** An embedding order that [embedded_space] accepts for [F] and that leaves
    at least one embedded frame: non-negative, with a fractional part that
    covers a whole number of feature dimensions, and [ceil(m)] below the
    number of frames. *)
Definition embeddable (m : Q) (F : array2) : Prop :=
  0 <= m /\
  (exists z, mod1 m * inject_Z (Z.of_nat (shape1 F)) == inject_Z z) /\
  (Qceiling m < Z.of_nat (shape0 F))%Z.

(** The inputs on which the pipeline of [process] runs through. *)
Definition runnable (cfg : config) (F : array2) (frame_times : list Q) : Prop :=
  wf F /\ ((20 < shape0 F)%nat -> embeddable (m_embedded cfg) F) /\
  (shape0 F <= length frame_times)%nat /\ (1 <= length frame_times)%nat.

(** ** Proof devices *)

(** [X[i, j]] with a default, and the array given by an entry function. *)
Definition entry (X : array2) (i j : nat) : Q := nth j (nth i (rows X) []) 0.

Definition tabulate (n m : nat) (f : nat -> nat -> Q) : array2 :=
  mk2 m (map (fun i => map (fun j => f i j) (seq 0 m)) (seq 0 n)).

(** The distances of successive rows, the entries that [compute_nc] writes. *)
Definition successive {lib : Library} (X : array2) : list Q :=
  map (fun i => distance_euclidean (nth i (rows X) []) (nth (i + 1) (rows X) []))
      (seq 0 (shape0 X - 1)).

(** Row [i] of the embedding: [fl] flattened frames from frame [i] on, then
    the first [z] entries of the next frame. *)
Definition embedded_row (X : array2) (fl z i : nat) : list Q :=
  concat (firstn fl (skipn i (rows X))) ++ firstn z (nth (i + fl) (rows X) []).

(** The test of lines 92-94 at index [i], on total lookups. *)
Definition is_peak (nc th : list Q) (i : nat) : bool :=
  ltb (nth (i - 1) nc 0) (nth i nc 0) && ltb (nth (i + 1) nc 0) (nth i nc 0)
  && ltb (nth i th 0) (nth i nc 0).

Definition nc7 : list Q := [0; 1; 0; 3 # 10; 3 # 10; 3 # 10; 0].

Definition X3 : array2 := mk2 2 [[0; 0]; [3; 0]; [3; 0]].

Definition R3 : array2 := mk2 3 [[1; 2; 3]; [4; 5; 6]; [7; 8; 9]].

(** ** The other routines of the SF module *)

(** [median_filter(X, M)], lines 31-35 (and, word for word, lines 28-32 of
    [algorithms/cnmf3/segmenter.py]): every column of [X] is replaced by
    its median-filtered version. *)
Definition median_filter {lib : Library} (X : array2) (M : Z) : result array2 :=
  cs <- mapM (fun j => assign_row (shape0 X) (filters_median_filter (col X j) M))
             (seq 0 (ncols X)) ;;
  Ok (transpose (mk2 (shape0 X) cs)).

(** The scipy routines of the two remaining functions of the module. *)
Class SciPy : Type := {
  (** [scipy.signal.gaussian(M, std, sym=True)] *)
  signal_gaussian : Z -> Q -> list Q;
  (** [distance.squareform(distance.pdist(X, metric))] *)
  distance_squareform_pdist : array2 -> array2
}.

(** [-G[r0:r1, c0:c1]] written back in place: the entries whose row index
    lies in [r0, r1) and whose column index lies in [c0, c1) change sign. *)
Definition negate_block (G : array2) (r0 r1 c0 c1 : nat) : array2 :=
  mk2 (ncols G)
      (map (fun ir =>
              map (fun jv =>
                     if (r0 <=? fst ir)%nat && (fst ir <? r1)%nat
                        && (c0 <=? fst jv)%nat && (fst jv <? c1)%nat
                     then - snd jv else snd jv)
                  (combine (seq 0 (length (snd ir))) (snd ir)))
           (combine (seq 0 (shape0 G)) (rows G))).

(** [compute_gaussian_krnl(M)], lines 48-54, for a Python 2 integer [M]:
    [M / 2] is the floor division and [M / 1] is [M].  The slices are
    [G[M/2:, :M/2]] and [G[:M/2, M:]]. *)
Definition compute_gaussian_krnl {sp : SciPy} (M : Z) : array2 :=
  let g := signal_gaussian M (inject_Z M / 3) in
  let G := mk2 (length g) (map (fun a => map (fun b => a * b) g) g) in
  let n := Z.of_nat (shape0 G) in
  let w := Z.of_nat (ncols G) in
  let G := negate_block G (Z.to_nat (clip n (M / 2))) (shape0 G)
                        0 (Z.to_nat (clip w (M / 2))) in
  negate_block G 0 (Z.to_nat (clip n (M / 2)))
               (Z.to_nat (clip w (M / 1))) (ncols G).

(** [compute_ssm(X, metric)], lines 57-62: the distance matrix divided by
    its largest entry, subtracted from 1.  [D.max()] refuses an array
    without entries. *)
Definition compute_ssm {sp : SciPy} (X : array2) : result array2 :=
  let D := distance_squareform_pdist X in
  mx <- amax (concat (rows D)) ;;
  Ok (mk2 (ncols D) (map (map (fun d => 1 - d / mx)) (rows D))).

(** Stand-ins for the two scipy routines, for examples: a bell-shaped
    window 1 / (1 + (2i - (M - 1))^2) and the matrix of city-block distances
    of the rows. *)
Definition bell_window (M : Z) (std : Q) : list Q :=
  map (fun i => 1 / (1 + inject_Z ((2 * Z.of_nat i - (M - 1)) * (2 * Z.of_nat i - (M - 1)))))
      (seq 0 (Z.to_nat M)).

Definition cityblock_matrix (X : array2) : array2 :=
  mk2 (shape0 X) (map (fun u => map (fun v => cityblock u v) (rows X)) (rows X)).

#[local] Instance reference_scipy : SciPy := {|
  signal_gaussian := bell_window;
  distance_squareform_pdist := cityblock_matrix
|}.

(** ** The C-NMF module, [algorithms/cnmf3/segmenter.py] *)

(** [pymf.CNMF(S, num_bases=rank)] (or [CHNMF] with [hull]), [factorize]
    and the matrices [W] and [H]; any exception it raises is caught by the
    callers of [cnmf]. *)
Class Pymf : Type := {
  pymf_factorize : bool -> array2 -> Z -> Z -> result (array2 * array2)
}.

Module Cnmf3.

(** [np.bincount(x)]: negative entries are refused; the counts of the
    values 0 .. max(x). *)
Definition bincount (x : list Z) : result (list nat) :=
  if existsb (fun v => (v <? 0)%Z) x then Raise ValueError
  else Ok (map (fun v => count_occ Z.eq_dec x (Z.of_nat v))
               (seq 0 (Z.to_nat (fold_right Z.max (-1)%Z x + 1)))).

(** The scan of [np.argmax]: the first position of the largest entry. *)
Fixpoint argmax_from {A : Type} (lt : A -> A -> bool) (best_i : nat) (best : A)
         (i : nat) (l : list A) : nat :=
  match l with
  | [] => best_i
  | a :: t =>
      if lt best a then argmax_from lt i a (S i) t
      else argmax_from lt best_i best (S i) t
  end.

(** [np.argmax(l)]; numpy refuses the empty sequence. *)
Definition argmax {A : Type} (lt : A -> A -> bool) (l : list A) : result nat :=
  match l with
  | [] => Raise ValueError
  | a :: t => Ok (argmax_from lt 0 a 1 t)
  end.

(** [np.max(l)] on integers. *)
Definition imax (l : list Z) : result Z :=
  match l with
  | [] => Raise ValueError
  | a :: t => Ok (fold_left Z.max t a)
  end.

(** [most_frequent(x)], lines 65-67. *)
Definition most_frequent (x : list Z) : result Z :=
  c <- bincount x ;;
  i <- argmax Nat.ltb c ;;
  Ok (Z.of_nat i).

(** [cnmf(S, rank, niter, hull)], lines 35-62. *)
Definition cnmf {py : Pymf} (S : array2) (rank niter : Z) (hull : bool)
  : result (array2 * array2) :=
  pymf_factorize hull S rank niter.

(** [filter_activation_matrix(G, R)], lines 96-113.  [np.argmax(G, axis=1)]
    refuses rows without entries; [G] is zeroed, row [i] receives
    [idx[i] + 1] at column [idx[i]], the rows are summed and the column of
    the sums is median filtered. *)
Definition filter_activation_matrix {lib : Library} (G : array2) (R : Z)
  : result (list Q) :=
  if (ncols G =? 0)%nat then Raise ValueError
  else
    idx <- mapM (argmax ltb) (rows G) ;;
    let G := map (fun k => map (fun j => if (j =? k)%nat
                                         then inject_Z (Z.of_nat k + 1) else 0)
                               (seq 0 (ncols G)))
                 idx in
    let sums := map (fun r => fold_left Qplus r 0) G in
    Y <- median_filter (mk2 1 (map (fun v => [v]) sums)) R ;;
    Ok (concat (rows Y)).

(** [l[a:]]. *)
Definition slice_from {A : Type} (l : list A) (a : Z) : list A :=
  slice l a (Z.of_nat (length l)).

(** [compute_labels(X, rank, R, bound_idxs, niter)], lines 70-93. *)
Definition compute_labels {lib : Library} {py : Pymf} (X : array2) (rank R : Z)
           (bound_idxs : list Z) (niter : Z) : result (list Z) :=
  match cnmf X rank niter false with
  | Raise _ => Ok [1%Z]
  | Ok FG =>
      label_frames <- filter_activation_matrix (transpose (snd FG)) R ;;
      let label_frames := map int label_frames in
      let bound_inters := combine (slice bound_idxs 0 (-1)) (slice_from bound_idxs 1) in
      mapM (fun bound_inter =>
              if (snd bound_inter - fst bound_inter <=? 0)%Z
              then (mx <- imax label_frames ;; Ok (mx + 1)%Z)
              else most_frequent
                     (slice label_frames (fst bound_inter) (snd bound_inter)))
           bound_inters
  end.

(** [np.where(np.diff(G) != 0)[0] + 1]: the positions at which the value
    differs from the one before. *)
Definition change_points (G : list Q) : list Z :=
  map (fun i => (Z.of_nat i + 1)%Z)
      (filter (fun i => negb (Qeq_bool (nth (i + 1) G 0 - nth i G 0) 0))
              (seq 0 (length G - 1))).

(** How the [while True] loop of [get_segmentation] ends. *)
Inductive found : Type :=
| Bounds (bound_idxs : list Z)
| NoFactorization.

(** The loop of [get_segmentation], lines 150-167, for at most [fuel]
    rounds; [None] when the rounds are used up. *)
Fixpoint find_bounds {lib : Library} {py : Pymf} (fuel : nat) (X : array2)
         (rank R niter : Z) (bound_idxs : option (list Z))
  : option (result found) :=
  match fuel with
  | O => None
  | S fuel' =>
      let step :=
        match bound_idxs with
        | Some bs => Ok (Some bs)
        | None =>
            match cnmf X rank niter false with
            | Raise _ => Ok None
            | Ok FG =>
                G <- filter_activation_matrix (transpose (snd FG)) R ;;
                Ok (Some (change_points G))
            end
        end in
      match step with
      | Raise e => Some (Raise e)
      | Ok None => Some (Ok NoFactorization)
      | Ok (Some bs) =>
          if (length (nodup Z.eq_dec bs) <=? 2)%nat
          then find_bounds fuel' X (rank + 1) R niter None
          else Some (Ok (Bounds bs))
      end
  end.

(** [get_segmentation(X, rank, R, rank_labels, R_labels, niter, bound_idxs,
    in_labels)], lines 116-182; [compute_labels] is called with its default
    [niter=300]. *)
Definition get_segmentation {lib : Library} {py : Pymf} (fuel : nat) (X : array2)
           (rank R rank_labels R_labels niter : Z)
           (bound_idxs : option (list Z)) (in_labels : option (list Z))
  : option (result (list Z * list Z)) :=
  match find_bounds fuel X rank R niter bound_idxs with
  | None => None
  | Some (Raise e) => Some (Raise e)
  | Some (Ok NoFactorization) => Some (Ok ([], [1%Z]))
  | Some (Ok (Bounds bs)) =>
      let bound_idxs := [0%Z] ++ bs ++ [(Z.of_nat (shape1 X) - 1)%Z] in
      Some (labels <- match in_labels with
                      | None => compute_labels X rank_labels R_labels bound_idxs 300
                      | Some _ => Ok (repeat 1%Z (length bound_idxs - 1))
                      end ;;
            Ok (bound_idxs, labels))
  end.

Record config : Type := {
  h : Z;
  R : Z;
  rank : Z;
  R_labels : Z;
  rank_labels : Z
}.

(** Lines 195-223 of [Segmenter.process]: the times and labels before
    [_postprocess]. *)
Definition process_estimates {lib : Library} {py : Pymf} (fuel : nat)
           (cfg : config) (F : array2) (frame_times : list Q) (dur : Q)
           (bound_idxs : option (list Z)) (in_labels : option (list Z))
  : option (result (list Q * list Z)) :=
  let segmentation :=
    if (h cfg <=? Z.of_nat (shape0 F))%Z then
      match median_filter F (h cfg) with
      | Raise e => Some (Raise e)
      | Ok F =>
          get_segmentation fuel (transpose F) (rank cfg) (R cfg)
                           (rank_labels cfg) (R_labels cfg) 300
                           bound_idxs in_labels
      end
    else Some (Ok ([], [1%Z])) in
  match segmentation with
  | None => None
  | Some (Raise e) => Some (Raise e)
  | Some (Ok (bound_idxs, est_labels)) =>
      Some (ts <- mapM (index frame_times) bound_idxs ;;
            let est_times := [0] ++ ts ++ [dur] in
            mx <- imax est_labels ;;
            let silencelabel := (mx + 1)%Z in
            Ok (est_times, [silencelabel] ++ est_labels ++ [silencelabel]))
  end.

(** [Segmenter.process], lines 186-231. *)
Definition process {lib : Library} {py : Pymf} {itf : SegmenterInterface}
           (fuel : nat) (cfg : config) (F : array2) (frame_times : list Q)
           (dur : Q) (bound_idxs : option (list Z)) (in_labels : option (list Z))
  : option (result (list Q * list Q)) :=
  match process_estimates fuel cfg F frame_times dur bound_idxs in_labels with
  | None => None
  | Some (Raise e) => Some (Raise e)
  | Some (Ok e) => Some (_postprocess (fst e) (map inject_Z (snd e)))
  end.

End Cnmf3.

(** An activation matrix (frames by components) for examples. *)
Definition G43 : array2 :=
  mk2 3 [[1 # 2; 1 # 4; 0]; [1 # 4; 1 # 2; 1 # 2]; [0; 0; 1]; [1; 1; 1]].

(** Stand-ins for pymf, for examples: a factorization that always raises,
    and one whose activations single out the same component in every frame. *)
#[local] Instance pymf_raises : Pymf := {|
  pymf_factorize := fun _ _ _ _ => Raise ValueError
|}.

#[local] Instance pymf_constant : Pymf := {|
  pymf_factorize := fun _ S rank _ =>
    Ok (mk2 2 (map (fun _ => [1; 0]) (rows S)),
        mk2 (ncols S) [repeat 1 (ncols S); repeat 0 (ncols S)])
|}.

Definition cnmf_cfg0 : Cnmf3.config :=
  {| Cnmf3.h := 8; Cnmf3.R := 15; Cnmf3.rank := 3;
     Cnmf3.R_labels := 11; Cnmf3.rank_labels := 6 |}.

(** Ten frames of two features, as columns (the argument of
    [get_segmentation]) and as rows (the argument of [process]). *)
Definition X210 : array2 :=
  mk2 10 [[0; 0; 0; 0; 0; 1; 1; 1; 1; 1]; [1; 1; 1; 1; 1; 0; 0; 0; 0; 0]].

Definition F102 : array2 := transpose X210.

(** ** The OLDA module, [algorithms/olda/segmenter.py] *)

(** What the cost and the search of the module take from outside:
    [librosa.segment.agglomerative(X, k)] and the value of
    [np.log(2. * np.pi)]. *)
Class Agglomerative : Type := {
  librosa_agglomerative : array2 -> Z -> list Z;
  log_2pi : Q
}.

Module Olda.



(** [np.var(r, ddof=1)]. *)
Definition var1 (r : list Q) : Q :=
  let n := inject_Z (Z.of_nat (length r)) in
  let mean := fold_left Qplus r 0 / n in
  fold_left Qplus (map (fun x => (x - mean) * (x - mean)) r) 0 / (n - 1).

(** [gaussian_cost(X)], lines 159-171. *)
Definition gaussian_cost {ag : Agglomerative} (X : array2) : Q :=
  let d := inject_Z (Z.of_nat (shape0 X)) in
  let n := inject_Z (Z.of_nat (shape1 X)) in
  if (shape1 X <? 2)%nat then 0
  else
    let sigma := map var1 (rows X) in
    - (1 # 2) * d * n * log_2pi - (1 # 2) * (n - 1) * fold_left Qplus sigma 0.

(** [X[:, start:end]]. *)
Definition columns (X : array2) (a b : Z) : array2 :=
  mk2 (length (slice (seq 0 (ncols X)) a b)) (map (fun r => slice r a b) (rows X)).

(** [clustering_cost(X, boundaries)], lines 174-187. *)
Definition clustering_cost {ag : Agglomerative} (X : array2) (boundaries : list Z) : Q :=
  let k := (Z.of_nat (length boundaries) - 1)%Z in
  let d := inject_Z (Z.of_nat (shape0 X)) in
  let n := inject_Z (Z.of_nat (shape1 X)) in
  let cost := map (fun se => gaussian_cost (columns X (fst se) (snd se)))
                  (combine (slice boundaries 0 (-1))
                           (slice boundaries 1 (Z.of_nat (length boundaries)))) in
  - 2 * fold_left Qplus cost 0 / n + 2 * (d * inject_Z k).

(** [np.unique]: the distinct values in increasing order. *)
Fixpoint insert_unique (x : Z) (l : list Z) : list Z :=
  match l with
  | [] => [x]
  | y :: t =>
      if (x <? y)%Z then x :: l
      else if (x =? y)%Z then l
           else y :: insert_unique x t
  end.

Definition unique (l : list Z) : list Z := fold_right insert_unique [] l.

(** [get_k_segments(X, k)], lines 190-200. *)
Definition get_k_segments {ag : Agglomerative} (X : array2) (k : Z) : list Z * Q :=
  let boundaries := librosa_agglomerative X k in
  let boundaries := unique ([0%Z] ++ boundaries ++ [Z.of_nat (shape1 X)]) in
  let cost := clustering_cost X boundaries in
  (boundaries, cost).

(** The loop of [get_segments], lines 207-213, over the remaining values of
    [k]; [cost_min] is [None] for [np.inf]. *)
Fixpoint segments_loop {ag : Agglomerative} (X : array2) (ks : list Z)
         (cost_min : option Q) (S_best : list Z) : list Z :=
  match ks with
  | [] => S_best
  | k :: ks' =>
      let Sc := get_k_segments X k in
      if match cost_min with
         | None => true
         | Some c => ltb (snd Sc) c
         end
      then segments_loop X ks' (Some (snd Sc)) (fst Sc)
      else S_best
  end.

(** [range(kmax, kmin, -1)]. *)
Definition descending (kmax kmin : Z) : list Z :=
  map (fun i => (kmax - Z.of_nat i)%Z) (seq 0 (Z.to_nat (kmax - kmin))).

(** [get_segments(X, kmin, kmax)], lines 203-215. *)
Definition get_segments {ag : Agglomerative} (X : array2) (kmin kmax : Z) : list Z :=
  segments_loop X (descending kmax kmin) None [].

End Olda.

(** A stand-in for the agglomerative clustering, for examples: [k - 1]
    boundaries spread evenly over the frames; and 2 for the logarithm. *)
#[local] Instance even_split : Agglomerative := {|
  librosa_agglomerative := fun X k =>
    map (fun i => (Z.of_nat i * Z.of_nat (ncols X) / k)%Z)
        (seq 1 (Z.to_nat (k - 1)));
  log_2pi := 2
|}.

(** ** The plotting module, [plotting.py] *)

Module Plotting.

Import String.

(** [translate_ids], lines 23-33. *)
Definition translate_ids : list (string * string) :=
  [("2dfmc", "2D-FMC"); ("cnmf3", "C-NMF"); ("foote", "Ckboard");
   ("levy", "CC"); ("cc", "CC"); ("olda", "OLDA"); ("serra", "SF");
   ("sf", "SF"); ("siplca", "SI-PLCA")]%string.

(** [translate_ids[algo_id]]; [None] is the KeyError. *)
Fixpoint lookup (d : list (string * string)) (key : string) : option string :=
  match d with
  | [] => None
  | (k0, v) :: d' => if String.eqb k0 key then Some v else lookup d' key
  end.

(** What a call of [plot_boundaries] or [plot_labels] leaves behind: the
    list that the caller passed as [algo_ids], after the writes of the
    loop, and the local [algo_ids] with its leading GT, or the key that was
    missing. *)
Inductive translated : Type :=
| Translated (caller_ids : list string) (algo_ids : list string)
| KeyError (caller_ids : list string) (key : string).

(** The loop of lines 75-76 (and 118-119): entry [i] of the list is
    overwritten with its translation; [seen] holds the entries already
    overwritten. *)
Fixpoint translate_loop (seen rest : list string) : translated :=
  match rest with
  | [] => Translated seen (("GT"%string :: nil) ++ seen)
  | algo_id :: rest' =>
      match lookup translate_ids algo_id with
      | Some v => translate_loop (seen ++ [v]) rest'
      | None => KeyError (seen ++ rest) algo_id
      end
  end.

(** Lines 74-77 of [plot_boundaries] and 117-120 of [plot_labels], for an
    [algo_ids] that is not None. *)
Definition translate_algo_ids (algo_ids : list string) : translated :=
  translate_loop [] algo_ids.

End Plotting.

(** What the module relies on from pymf: the activation matrix has one
    column per column of the factorized matrix. *)
Definition pymf_contract (py : Pymf) : Prop :=
  forall hull S rank niter F G,
    pymf_factorize hull S rank niter = Ok (F, G) -> ncols G = ncols S.

(** A stand-in for pymf whose activations switch between two components
    every two frames. *)
#[local] Instance pymf_blocks : Pymf := {|
  pymf_factorize := fun _ S rank _ =>
    Ok (mk2 2 (map (fun _ => [1; 0]) (rows S)),
        mk2 (ncols S)
            [map (fun j => if Nat.even (j / 2) then 1 else 0) (seq 0 (ncols S));
             map (fun j => if Nat.even (j / 2) then 0 else 1) (seq 0 (ncols S))])
|}.

(** ** Further inputs for examples *)

(** A 2 x 3 and a 3 x 2 array. *)
Definition W23 : array2 := mk2 3 [[1; 2; 3]; [4; 5; 6]].

Definition W32 : array2 := mk2 2 [[1; 2]; [3; 4]; [5; 6]].

(** * Properties *)

(** ** The exception monad *)

Lemma mapM_ok {A B : Type} (f : A -> result B) (g : A -> B) (l : list A) :
  (forall x, In x l -> f x = Ok (g x)) -> mapM f l = Ok (map g l).
Proof.
  induction l as [|x l IH]; intros H; simpl; [reflexivity|].
  rewrite (H x) by (left; reflexivity). simpl.
  rewrite IH by (intros y Hy; apply H; right; exact Hy). reflexivity.
Qed.

(** ** Arrays by entries *)

Lemma list_tabulate {A : Type} (d : A) (l : list A) :
  map (fun i => nth i l d) (seq 0 (length l)) = l.
Proof.
  induction l as [|x l IH]; simpl; [reflexivity|].
  f_equal. rewrite <- seq_shift, map_map. exact IH.
Qed.

Lemma tabulate_ext (n m : nat) (f g : nat -> nat -> Q) :
  (forall i j, (i < n)%nat -> (j < m)%nat -> f i j = g i j) ->
  tabulate n m f = tabulate n m g.
Proof.
  intros H. unfold tabulate. f_equal.
  apply map_ext_in. intros i Hi. apply in_seq in Hi.
  apply map_ext_in. intros j Hj. apply in_seq in Hj.
  apply H; lia.
Qed.

Lemma wf_tabulate (X : array2) :
  wf X -> X = tabulate (shape0 X) (ncols X) (entry X).
Proof.
  destruct X as [c rs]. unfold wf, tabulate, shape0, entry. simpl. intros H.
  f_equal.
  rewrite <- (list_tabulate [] rs) at 1.
  apply map_ext_in. intros i Hi. apply in_seq in Hi.
  assert (Hlen : length (nth i rs []) = c).
  { rewrite Forall_forall in H. apply H. apply nth_In. lia. }
  rewrite <- Hlen. symmetry. apply list_tabulate.
Qed.

Lemma tabulate_wf (n m : nat) (f : nat -> nat -> Q) : wf (tabulate n m f).
Proof.
  unfold wf, tabulate. simpl. apply Forall_forall. intros r Hr.
  apply in_map_iff in Hr. destruct Hr as [i [<- _]].
  now rewrite length_map, length_seq.
Qed.

Lemma shape0_tabulate (n m : nat) (f : nat -> nat -> Q) : shape0 (tabulate n m f) = n.
Proof. unfold shape0, tabulate. simpl. now rewrite length_map, length_seq. Qed.

Lemma get2_tabulate (n m : nat) (f : nat -> nat -> Q) (i j : nat) :
  (i < n)%nat -> (j < m)%nat -> get2 (tabulate n m f) i j = Ok (f i j).
Proof.
  intros Hi Hj. unfold get2, tabulate. simpl.
  rewrite nth_error_map, nth_error_nth' with (d := 0%nat) by (rewrite length_seq; lia).
  rewrite seq_nth by lia. simpl.
  rewrite nth_error_map, nth_error_nth' with (d := 0%nat) by (rewrite length_seq; lia).
  rewrite seq_nth by lia. reflexivity.
Qed.

Lemma assign_row_exact (w : nat) (v : list Q) : length v = w -> assign_row w v = Ok v.
Proof. intros H. unfold assign_row. now rewrite H, Nat.eqb_refl. Qed.

(** ** Lag transform *)

Lemma circular_shift_tabulate (n : nat) (f : nat -> nat -> Q) :
  circular_shift (tabulate n n f)
  = Ok (tabulate n n (fun i j => f ((i + j) mod n)%nat j)).
Proof.
  unfold circular_shift. rewrite shape0_tabulate.
  rewrite mapM_ok with (g := fun i => map (fun j => f ((i + j) mod n)%nat j) (seq 0 n)).
  - reflexivity.
  - intros i Hi. apply in_seq in Hi.
    rewrite mapM_ok with (g := fun j => f ((i + j) mod n)%nat j).
    + simpl. apply assign_row_exact. now rewrite length_map, length_seq.
    + intros j Hj. apply in_seq in Hj. apply get2_tabulate; [|lia].
      apply Nat.mod_upper_bound. lia.
Qed.

Lemma iterM_circular_shift (k n : nat) (f : nat -> nat -> Q) :
  iterM k circular_shift (tabulate n n f)
  = Ok (tabulate n n (fun i j => f ((i + k * j) mod n)%nat j)).
Proof.
  revert f. induction k as [|k IH]; intros f; simpl.
  - f_equal. apply tabulate_ext. intros i j Hi Hj.
    now rewrite Nat.add_0_r, Nat.mod_small.
  - rewrite circular_shift_tabulate. simpl. rewrite IH. f_equal.
    apply tabulate_ext. intros i j Hi Hj.
    rewrite Nat.Div0.add_mod_idemp_l. f_equal. f_equal. lia.
Qed.

Lemma square_tabulate (X : array2) :
  square X -> X = tabulate (shape0 X) (shape0 X) (entry X).
Proof.
  intros [Hwf Hsq]. rewrite <- Hsq at 2. now apply wf_tabulate.
Qed.

(** C6.  For an n x n matrix R the lag transform returns an n x n matrix L
    with L[i][j] = R[(i + j) mod n][j] for all 0 <= i, j < n; for n = 0 it
    returns the empty matrix and raises nothing. *)
Theorem circular_shift_lag (R : array2) :
  square R ->
  exists L,
    circular_shift R = Ok L /\ square L /\ shape0 L = shape0 R /\
    (forall i j, (i < shape0 R)%nat -> (j < shape0 R)%nat ->
       exists v, get2 L i j = Ok v /\ get2 R ((i + j) mod shape0 R) j = Ok v) /\
    (shape0 R = 0%nat -> L = mk2 0 []).
Proof.
  intros Hsq. pose proof (square_tabulate Hsq) as HR.
  set (n := shape0 R) in *.
  exists (tabulate n n (fun i j => entry R ((i + j) mod n)%nat j)).
  split; [|split; [|split; [|split]]].
  - rewrite HR at 1. apply circular_shift_tabulate.
  - split; [apply tabulate_wf|]. now rewrite shape0_tabulate.
  - apply shape0_tabulate.
  - intros i j Hi Hj. exists (entry R ((i + j) mod n)%nat j). split.
    + now apply (get2_tabulate (fun a b => entry R ((a + b) mod n)%nat b)).
    + rewrite HR at 1. apply get2_tabulate; [|exact Hj].
      apply Nat.mod_upper_bound. lia.
  - intros Hn. rewrite Hn. reflexivity.
Qed.

Lemma circular_shift_lag_witness :
  square R3 /\
  exists L,
    circular_shift R3 = Ok L /\ square L /\ shape0 L = shape0 R3 /\
    (forall i j, (i < shape0 R3)%nat -> (j < shape0 R3)%nat ->
       exists v, get2 L i j = Ok v /\ get2 R3 ((i + j) mod shape0 R3) j = Ok v) /\
    (shape0 R3 = 0%nat -> L = mk2 0 []).
Proof.
  assert (H : square R3) by (split; [repeat constructor | reflexivity]).
  split; [exact H | exact (circular_shift_lag H)].
Defined.

(** C3, as stated: on the 3 x 3 matrix with entries 1..9 the transform
    applied twice returns a different matrix. *)
Lemma circular_shift_twice_differs :
  square R3 /\
  (L <- circular_shift R3 ;; circular_shift L)
  = Ok (mk2 3 [[1; 8; 6]; [4; 2; 9]; [7; 5; 3]]) /\
  (L <- circular_shift R3 ;; circular_shift L) <> Ok R3.
Proof.
  split; [split; [repeat constructor | reflexivity]|].
  split; [reflexivity | discriminate].
Qed.

(** C3, amended.  For an n x n matrix R the transform applied n times
    recovers R; applied twice it yields the entries R[(i + 2j) mod n][j],
    which is R again when n <= 2. *)
Theorem circular_shift_round_trip (R : array2) :
  square R ->
  iterM (shape0 R) circular_shift R = Ok R /\
  exists L2,
    iterM 2 circular_shift R = Ok L2 /\
    (forall i j, (i < shape0 R)%nat -> (j < shape0 R)%nat ->
       exists v, get2 L2 i j = Ok v /\
                 get2 R ((i + 2 * j) mod shape0 R) j = Ok v) /\
    ((shape0 R <= 2)%nat -> L2 = R).
Proof.
  intros Hsq. pose proof (square_tabulate Hsq) as HR.
  set (n := shape0 R) in *. split.
  - rewrite HR at 1. rewrite iterM_circular_shift. f_equal.
    etransitivity; [|symmetry; exact HR].
    apply tabulate_ext. intros i j Hi Hj.
    rewrite Nat.mul_comm, Nat.Div0.mod_add. now rewrite Nat.mod_small.
  - exists (tabulate n n (fun i j => entry R ((i + 2 * j) mod n)%nat j)).
    split; [rewrite HR at 1; apply iterM_circular_shift|]. split.
    + intros i j Hi Hj. exists (entry R ((i + 2 * j) mod n)%nat j). split.
      * now apply (get2_tabulate (fun a b => entry R ((a + 2 * b) mod n)%nat b)).
      * rewrite HR at 1. apply get2_tabulate; [|exact Hj].
        apply Nat.mod_upper_bound. lia.
    + intros Hn. etransitivity; [|symmetry; exact HR].
      apply tabulate_ext. intros i j Hi Hj.
      assert (Hc : (j = 0 \/ (j = 1 /\ n = 2))%nat) by lia.
      destruct Hc as [-> | [-> ->]].
      * now rewrite Nat.mul_0_r, Nat.add_0_r, Nat.mod_small.
      * replace (i + 2 * 1)%nat with (i + 1 * 2)%nat by lia.
        rewrite Nat.Div0.mod_add. now rewrite Nat.mod_small.
Qed.

(** Two applications on a 2 x 2 matrix. *)
Lemma circular_shift_twice_2x2 :
  iterM 2 circular_shift (mk2 2 [[1; 2]; [3; 4]]) = Ok (mk2 2 [[1; 2]; [3; 4]]).
Proof. reflexivity. Qed.

Lemma circular_shift_round_trip_witness :
  square R3 /\
  iterM (shape0 R3) circular_shift R3 = Ok R3 /\
  exists L2,
    iterM 2 circular_shift R3 = Ok L2 /\
    (forall i j, (i < shape0 R3)%nat -> (j < shape0 R3)%nat ->
       exists v, get2 L2 i j = Ok v /\
                 get2 R3 ((i + 2 * j) mod shape0 R3) j = Ok v) /\
    ((shape0 R3 <= 2)%nat -> L2 = R3).
Proof.
  assert (H : square R3) by (split; [repeat constructor | reflexivity]).
  split; [exact H | exact (circular_shift_round_trip H)].
Defined.

(** ** Minimum and maximum of an array *)

Lemma Qmin_cases (x y : Q) : (Qmin x y = x /\ x <= y) \/ (Qmin x y = y /\ y <= x).
Proof.
  unfold Qmin, GenericMinMax.gmin. destruct (x ?= y) eqn:E.
  - left. split; [reflexivity|]. apply Qeq_alt in E. rewrite E. apply Qle_refl.
  - left. split; [reflexivity|]. apply Qlt_alt in E. now apply Qlt_le_weak.
  - right. split; [reflexivity|]. apply Qgt_alt in E. now apply Qlt_le_weak.
Qed.

Lemma Qmax_cases (x y : Q) : (Qmax x y = x /\ y <= x) \/ (Qmax x y = y /\ x <= y).
Proof.
  unfold Qmax, GenericMinMax.gmax. destruct (x ?= y) eqn:E.
  - left. split; [reflexivity|]. apply Qeq_alt in E. rewrite E. apply Qle_refl.
  - right. split; [reflexivity|]. apply Qlt_alt in E. now apply Qlt_le_weak.
  - left. split; [reflexivity|]. apply Qgt_alt in E. now apply Qlt_le_weak.
Qed.

Lemma fold_min_spec (t : list Q) (x : Q) :
  In (fold_left Qmin t x) (x :: t) /\
  forall y, In y (x :: t) -> fold_left Qmin t x <= y.
Proof.
  revert x. induction t as [|z t IH]; intros x; simpl.
  - split; [left; reflexivity|]. intros y [<-|[]]. apply Qle_refl.
  - destruct (IH (Qmin x z)) as [Hin Hle]. split.
    + destruct Hin as [Hin|Hin]; [|right; right; exact Hin].
      rewrite <- Hin. destruct (Qmin_cases x z) as [[-> _]|[-> _]]; auto.
    + intros y Hy.
      assert (Hm : fold_left Qmin t (Qmin x z) <= Qmin x z)
        by (apply Hle; left; reflexivity).
      destruct Hy as [<-|[<-|Hy]].
      * eapply Qle_trans; [exact Hm|].
        destruct (Qmin_cases x z) as [[-> _]|[-> H]]; [apply Qle_refl|exact H].
      * eapply Qle_trans; [exact Hm|].
        destruct (Qmin_cases x z) as [[-> H]|[-> _]]; [exact H|apply Qle_refl].
      * apply Hle. right. exact Hy.
Qed.

Lemma fold_max_spec (t : list Q) (x : Q) :
  In (fold_left Qmax t x) (x :: t) /\
  forall y, In y (x :: t) -> y <= fold_left Qmax t x.
Proof.
  revert x. induction t as [|z t IH]; intros x; simpl.
  - split; [left; reflexivity|]. intros y [<-|[]]. apply Qle_refl.
  - destruct (IH (Qmax x z)) as [Hin Hle]. split.
    + destruct Hin as [Hin|Hin]; [|right; right; exact Hin].
      rewrite <- Hin. destruct (Qmax_cases x z) as [[-> _]|[-> _]]; auto.
    + intros y Hy.
      assert (Hm : Qmax x z <= fold_left Qmax t (Qmax x z))
        by (apply Hle; left; reflexivity).
      destruct Hy as [<-|[<-|Hy]].
      * eapply Qle_trans; [|exact Hm].
        destruct (Qmax_cases x z) as [[-> _]|[-> H]]; [apply Qle_refl|exact H].
      * eapply Qle_trans; [|exact Hm].
        destruct (Qmax_cases x z) as [[-> H]|[-> _]]; [exact H|apply Qle_refl].
      * apply Hle. right. exact Hy.
Qed.

Lemma amin_spec (a : list Q) :
  a <> [] -> exists m, amin a = Ok m /\ In m a /\ forall y, In y a -> m <= y.
Proof.
  destruct a as [|x t]; [congruence|]. intros _.
  exists (fold_left Qmin t x). split; [reflexivity|]. apply fold_min_spec.
Qed.

Lemma amax_spec (a : list Q) :
  a <> [] -> exists m, amax a = Ok m /\ In m a /\ forall y, In y a -> y <= m.
Proof.
  destruct a as [|x t]; [congruence|]. intros _.
  exists (fold_left Qmax t x). split; [reflexivity|]. apply fold_max_spec.
Qed.

(** ** Novelty curve *)

Section NoveltyCurve.

Context {lib : Library}.

Lemma compute_nc_unfold (X : array2) :
  compute_nc X =
  (let nc := successive X ++ repeat 0 (shape0 X - (shape0 X - 1)) in
   lo <- amin nc ;;
   let nc := map (fun x => x + Qabs lo) nc in
   hi <- amax nc ;;
   Ok (map (fun x => x / hi) nc)).
Proof.
  unfold compute_nc, successive.
  rewrite mapM_ok with
    (g := fun i => distance_euclidean (nth i (rows X) []) (nth (i + 1) (rows X) [])).
  - reflexivity.
  - intros i Hi. apply in_seq in Hi. unfold shape0 in Hi.
    rewrite nth_error_nth' with (d := @nil Q) by lia.
    rewrite nth_error_nth' with (d := @nil Q) by lia.
    reflexivity.
Qed.

Lemma length_successive (X : array2) : length (successive X) = (shape0 X - 1)%nat.
Proof. unfold successive. now rewrite length_map, length_seq. Qed.

(** With at least one row the curve has one entry per row. *)
Lemma compute_nc_length (X : array2) :
  (1 <= shape0 X)%nat ->
  exists nc, compute_nc X = Ok nc /\ length nc = shape0 X.
Proof.
  intros HN. rewrite compute_nc_unfold. cbv zeta.
  replace (shape0 X - (shape0 X - 1))%nat with 1%nat by lia.
  set (nc0 := successive X ++ repeat 0 1).
  assert (Hlen : length nc0 = shape0 X).
  { unfold nc0. rewrite length_app, length_successive. simpl. lia. }
  destruct (amin_spec (a := nc0)) as [lo [Hlo _]].
  { intros E. rewrite E in Hlen. simpl in Hlen. lia. }
  rewrite Hlo. cbn [bind].
  destruct (amax_spec (a := map (fun x => x + Qabs lo) nc0)) as [hi [Hhi _]].
  { intros E. apply (f_equal (@length Q)) in E. rewrite length_map in E.
    simpl in E. lia. }
  rewrite Hhi. cbn [bind]. eexists. split; [reflexivity|].
  now rewrite !length_map.
Qed.

(** C4, amended.  Without rows [compute_nc] raises (the minimum of an empty
    array); with exactly one row it returns a curve of one entry, the
    quotient 0/0, not an empty result. *)
Theorem compute_nc_short (c : nat) (r : list Q) :
  compute_nc (mk2 c []) = Raise ValueError /\
  exists v, compute_nc (mk2 c [r]) = Ok [v].
Proof.
  split; [reflexivity|]. eexists. reflexivity.
Qed.

(** C7.  With a non-negative row distance, at least two rows and two
    successive rows at non-zero distance, the normalized curve has minimum
    0 and maximum 1 and all its entries lie in [0, 1]. *)
Theorem compute_nc_normalized (X : array2) :
  (forall u v, 0 <= distance_euclidean u v) ->
  (2 <= shape0 X)%nat ->
  (exists i u v,
      nth_error (rows X) i = Some u /\ nth_error (rows X) (S i) = Some v /\
      ~ distance_euclidean u v == 0) ->
  exists nc lo hi,
    compute_nc X = Ok nc /\ length nc = shape0 X /\
    amin nc = Ok lo /\ lo == 0 /\ amax nc = Ok hi /\ hi == 1 /\
    Forall (fun x => 0 <= x <= 1) nc.
Proof.
  intros Hpos HN [i [u [v [Hu [Hv Hd]]]]].
  rewrite compute_nc_unfold. cbv zeta.
  replace (shape0 X - (shape0 X - 1))%nat with 1%nat by lia.
  set (nc0 := successive X ++ repeat 0 1).
  assert (Hlen : length nc0 = shape0 X).
  { unfold nc0. rewrite length_app, length_successive. simpl. lia. }
  assert (H0 : forall x, In x nc0 -> 0 <= x).
  { intros x Hx. apply in_app_or in Hx. destruct Hx as [Hx|[<-|[]]].
    - unfold successive in Hx. apply in_map_iff in Hx.
      destruct Hx as [k [<- _]]. apply Hpos.
    - apply Qle_refl. }
  assert (Hz : In 0 nc0) by (apply in_or_app; right; left; reflexivity).
  assert (Hdi : In (distance_euclidean u v) nc0).
  { apply in_or_app. left. unfold successive. apply in_map_iff. exists i.
    assert (Hi : (S i < shape0 X)%nat)
      by (apply nth_error_Some; unfold shape0; congruence).
    split.
    - rewrite Nat.add_1_r.
      now rewrite (nth_error_nth _ _ [] Hu), (nth_error_nth _ _ [] Hv).
    - apply in_seq. lia. }
  destruct (amin_spec (a := nc0)) as [lo [Hlo [Hlo_in Hlo_le]]].
  { intros E. rewrite E in Hz. exact Hz. }
  rewrite Hlo. cbn [bind].
  assert (Hlo0 : Qabs lo == 0).
  { assert (E : lo == 0)
      by (apply Qle_antisym; [apply Hlo_le, Hz | apply H0, Hlo_in]).
    rewrite E. reflexivity. }
  set (nc1 := map (fun x => x + Qabs lo) nc0).
  assert (H1 : forall y, In y nc1 -> 0 <= y).
  { intros y Hy. apply in_map_iff in Hy. destruct Hy as [x [<- Hx]].
    apply H0 in Hx. lra. }
  destruct (amax_spec (a := nc1)) as [hi [Hhi [Hhi_in Hhi_le]]].
  { intros E. apply (in_map (fun x => x + Qabs lo)) in Hz.
    fold nc1 in Hz. rewrite E in Hz. exact Hz. }
  rewrite Hhi. cbn [bind].
  assert (Hhi_pos : 0 < hi).
  { assert (Hge : distance_euclidean u v + Qabs lo <= hi)
      by (apply Hhi_le; apply (in_map (fun x => x + Qabs lo)); exact Hdi).
    pose proof (Hpos u v) as Hp.
    assert (Hlt : 0 < distance_euclidean u v).
    { apply Qle_lt_or_eq in Hp. destruct Hp as [Hp|Hp]; [exact Hp|].
      exfalso. apply Hd. symmetry. exact Hp. }
    lra. }
  set (nc := map (fun x => x / hi) nc1).
  assert (Hrange : forall x, In x nc -> 0 <= x <= 1).
  { intros x Hx. apply in_map_iff in Hx. destruct Hx as [y [<- Hy]]. split.
    - apply Qle_shift_div_l; [exact Hhi_pos|]. apply H1 in Hy. lra.
    - apply Qle_shift_div_r; [exact Hhi_pos|]. apply Hhi_le in Hy. lra. }
  assert (Hz2 : In ((0 + Qabs lo) / hi) nc).
  { apply (in_map (fun x => x / hi)). apply (in_map (fun x => x + Qabs lo)).
    exact Hz. }
  assert (Hone : In (hi / hi) nc) by (apply (in_map (fun x => x / hi)); exact Hhi_in).
  destruct (amin_spec (a := nc)) as [lo' [Hlo' [Hlo'_in Hlo'_le]]].
  { intros E. rewrite E in Hone. exact Hone. }
  destruct (amax_spec (a := nc)) as [hi' [Hhi' [Hhi'_in Hhi'_le]]].
  { intros E. rewrite E in Hone. exact Hone. }
  exists nc, lo', hi'.
  split; [reflexivity|]. split; [unfold nc, nc1; now rewrite !length_map|].
  split; [exact Hlo'|]. split.
  { apply Qle_antisym; [|apply Hrange, Hlo'_in].
    apply Hlo'_le in Hz2. eapply Qle_trans; [exact Hz2|].
    apply Qle_shift_div_r; [exact Hhi_pos|]. lra. }
  split; [exact Hhi'|]. split.
  { apply Qle_antisym; [apply Hrange, Hhi'_in|].
    apply Hhi'_le in Hone. eapply Qle_trans; [|exact Hone].
    apply Qle_shift_div_l; [exact Hhi_pos|]. lra. }
  apply Forall_forall. exact Hrange.
Qed.

End NoveltyCurve.

(** C4, as stated: on a 0 x 3 matrix [compute_nc] raises and on a 1 x 3
    matrix its result is not empty. *)
Lemma compute_nc_short_not_empty :
  compute_nc (mk2 3 []) = Raise ValueError /\
  (exists v, compute_nc (mk2 3 [[1; 2; 3]]) = Ok [v]) /\
  compute_nc (mk2 3 [[1; 2; 3]]) <> Ok [].
Proof.
  split; [reflexivity|]. split; [eexists; reflexivity|discriminate].
Qed.

Lemma cityblock_nonneg (u v : list Q) : 0 <= cityblock u v.
Proof.
  unfold cityblock. induction (combine u v) as [|p l IH]; cbn [fold_right].
  - apply Qle_refl.
  - pose proof (Qabs_nonneg (fst p - snd p)). lra.
Qed.

Lemma compute_nc_normalized_witness :
  exists nc lo hi,
    compute_nc X3 = Ok nc /\ length nc = shape0 X3 /\
    amin nc = Ok lo /\ lo == 0 /\ amax nc = Ok hi /\ hi == 1 /\
    Forall (fun x => 0 <= x <= 1) nc.
Proof.
  apply (compute_nc_normalized (lib := reference_library) X3).
  - exact cityblock_nonneg.
  - unfold shape0. simpl. lia.
  - exists 0%nat, [0; 0], [3; 0]. split; [reflexivity|]. split; [reflexivity|].
    vm_compute. discriminate.
Defined.

(** ** Peak picking *)

Lemma ltb_lt (a b : Q) : ltb a b = true <-> a < b.
Proof.
  unfold ltb. rewrite negb_true_iff. split.
  - intros H. apply Qnot_le_lt. intros Hle. apply Qle_bool_iff in Hle. congruence.
  - intros H. destruct (Qle_bool b a) eqn:E; [|reflexivity].
    apply Qle_bool_iff in E. exfalso. exact (Qlt_not_le _ _ H E).
Qed.

Lemma filter_sorted (f : nat -> bool) (l : list nat) :
  StronglySorted lt l -> StronglySorted lt (filter f l).
Proof.
  induction 1 as [|x l Hs IH Hx]; simpl; [constructor|].
  destruct (f x); [|exact IH]. constructor; [exact IH|].
  rewrite Forall_forall in *. intros y Hy. apply Hx.
  apply filter_In in Hy. tauto.
Qed.

Lemma seq_sorted (k a : nat) : StronglySorted lt (seq a k).
Proof.
  revert a. induction k as [|k IH]; intros a; simpl; constructor; [apply IH|].
  apply Forall_forall. intros y Hy. apply in_seq in Hy. lia.
Qed.

Section PeakPicking.

Context {lib : Library}.

Lemma pick_loop_filter (nc th : list Q) (idxs peaks : list nat) :
  length th = length nc ->
  (forall i, In i idxs -> (1 <= i)%nat /\ (i + 2 <= length nc)%nat) ->
  pick_loop nc th idxs peaks = Ok (peaks ++ filter (is_peak nc th) idxs).
Proof.
  intros Hth. revert peaks. induction idxs as [|i idxs IH]; intros peaks Hin.
  - simpl. now rewrite app_nil_r.
  - destruct (Hin i (or_introl eq_refl)) as [H1 H2].
    assert (Hrest : forall k, In k idxs -> (1 <= k)%nat /\ (k + 2 <= length nc)%nat)
      by (intros k Hk; apply Hin; right; exact Hk).
    cbn [pick_loop filter]. unfold is_peak at 1.
    rewrite (@nth_error_nth' _ nc (i - 1) 0) by lia.
    rewrite (@nth_error_nth' _ nc i 0) by lia.
    rewrite (@nth_error_nth' _ nc (i + 1) 0) by lia.
    destruct (ltb (nth (i - 1) nc 0) (nth i nc 0) && ltb (nth (i + 1) nc 0) (nth i nc 0));
      cbn [andb]; [|apply IH; exact Hrest].
    rewrite (@nth_error_nth' _ th i 0) by lia.
    destruct (ltb (nth i th 0) (nth i nc 0)).
    + rewrite IH by exact Hrest. now rewrite <- app_assoc.
    + apply IH. exact Hrest.
Qed.

Lemma pick_peaks_filter (nc : list Q) (L : Z) (od : Q) :
  length (filters_median_filter nc L) = length nc ->
  pick_peaks nc L od
  = Ok (filter (is_peak nc (threshold nc L od)) (seq 1 (length nc - 1 - 1))).
Proof.
  intros Hlen. unfold pick_peaks. rewrite pick_loop_filter.
  - reflexivity.
  - unfold threshold. now rewrite length_map.
  - intros i Hi. apply in_seq in Hi. lia.
Qed.

Lemma nth_threshold (nc : list Q) (L : Z) (od : Q) (i : nat) :
  (i < length (filters_median_filter nc L))%nat ->
  nth i (threshold nc L od) 0 = nth i (filters_median_filter nc L) 0 + mean nc * od.
Proof.
  intros Hi. unfold threshold.
  rewrite nth_indep with (d' := 0 + mean nc * od) by (now rewrite length_map).
  apply (map_nth (fun x => x + mean nc * od)).
Qed.

(** C10.  The indices that [pick_peaks] returns are strictly increasing and
    lie in 1..n-2; neither 0 nor n-1 is ever among them. *)
Theorem pick_peaks_interior (nc : list Q) (L : Z) (od : Q) :
  length (filters_median_filter nc L) = length nc ->
  exists peaks,
    pick_peaks nc L od = Ok peaks /\ StronglySorted lt peaks /\
    (forall i, In i peaks -> (1 <= i)%nat /\ (i + 2 <= length nc)%nat) /\
    ~ In 0%nat peaks /\ ~ In (length nc - 1)%nat peaks.
Proof.
  intros Hlen. eexists. split; [apply pick_peaks_filter; exact Hlen|].
  set (f := is_peak nc (threshold nc L od)).
  assert (Hb : forall i, In i (filter f (seq 1 (length nc - 1 - 1))) ->
               (1 <= i)%nat /\ (i + 2 <= length nc)%nat).
  { intros i Hi. apply filter_In in Hi. destruct Hi as [Hi _].
    apply in_seq in Hi. lia. }
  split; [apply filter_sorted, seq_sorted|]. split; [exact Hb|].
  split; intros Hi; apply Hb in Hi; lia.
Qed.

(** C8.  With th[i] = median_filter(nc, size=L)[i] + mean(nc) * offset_denom,
    [pick_peaks] returns i exactly when 1 <= i <= n-2, nc[i-1] < nc[i],
    nc[i+1] < nc[i] and th[i] < nc[i]; hence no index of a region on which
    nc is constant (two entries or more) is returned. *)
Theorem pick_peaks_iff (nc : list Q) (L : Z) (od : Q) :
  length (filters_median_filter nc L) = length nc ->
  exists peaks,
    pick_peaks nc L od = Ok peaks /\
    (forall i,
        In i peaks <->
        (1 <= i)%nat /\ (i + 2 <= length nc)%nat /\
        nth (i - 1) nc 0 < nth i nc 0 /\ nth (i + 1) nc 0 < nth i nc 0 /\
        nth i (filters_median_filter nc L) 0 + mean nc * od < nth i nc 0) /\
    (forall lo hi c,
        (lo < hi)%nat ->
        (forall k, (lo <= k <= hi)%nat -> nth k nc 0 == c) ->
        forall i, (lo <= i <= hi)%nat -> ~ In i peaks).
Proof.
  intros Hlen. eexists. split; [apply pick_peaks_filter; exact Hlen|].
  assert (Hiff : forall i,
    In i (filter (is_peak nc (threshold nc L od)) (seq 1 (length nc - 1 - 1))) <->
    (1 <= i)%nat /\ (i + 2 <= length nc)%nat /\
    nth (i - 1) nc 0 < nth i nc 0 /\ nth (i + 1) nc 0 < nth i nc 0 /\
    nth i (filters_median_filter nc L) 0 + mean nc * od < nth i nc 0).
  { intros i. rewrite filter_In, in_seq. unfold is_peak.
    rewrite !andb_true_iff, !ltb_lt. split.
    - intros [Hi [[Ha Hc] Ht]]. rewrite nth_threshold in Ht by lia.
      repeat split; try lia; assumption.
    - intros [H1 [H2 [Ha [Hc Ht]]]]. rewrite nth_threshold by lia.
      repeat split; try lia; assumption. }
  split; [exact Hiff|].
  intros lo hi c Hlt Hflat i Hi Hin. apply Hiff in Hin.
  destruct Hin as [H1 [H2 [Ha [Hc _]]]].
  assert (Hcase : (lo <= i - 1 <= hi \/ lo <= i + 1 <= hi)%nat) by lia.
  destruct Hcase as [Hk|Hk].
  - rewrite (Hflat _ Hk), (Hflat _ Hi) in Ha. exact (Qlt_irrefl _ Ha).
  - rewrite (Hflat _ Hk), (Hflat _ Hi) in Hc. exact (Qlt_irrefl _ Hc).
Qed.

End PeakPicking.

Lemma length_moving_median (a : list Q) (size : Z) :
  length (moving_median a size) = length a.
Proof. unfold moving_median. now rewrite length_map, length_seq. Qed.

Lemma pick_peaks_interior_witness :
  pick_peaks nc7 3 (1 # 10) = Ok [1%nat] /\
  exists peaks,
    pick_peaks nc7 3 (1 # 10) = Ok peaks /\ StronglySorted lt peaks /\
    (forall i, In i peaks -> (1 <= i)%nat /\ (i + 2 <= length nc7)%nat) /\
    ~ In 0%nat peaks /\ ~ In (length nc7 - 1)%nat peaks.
Proof.
  split; [reflexivity|].
  apply (pick_peaks_interior (lib := reference_library) nc7 3 (1 # 10)).
  apply length_moving_median.
Defined.

Lemma pick_peaks_iff_witness :
  length (moving_median nc7 3) = length nc7 /\
  exists peaks,
    pick_peaks nc7 3 (1 # 10) = Ok peaks /\
    (forall i,
        In i peaks <->
        (1 <= i)%nat /\ (i + 2 <= length nc7)%nat /\
        nth (i - 1) nc7 0 < nth i nc7 0 /\ nth (i + 1) nc7 0 < nth i nc7 0 /\
        nth i (moving_median nc7 3) 0 + mean nc7 * (1 # 10) < nth i nc7 0) /\
    (forall lo hi c,
        (lo < hi)%nat ->
        (forall k, (lo <= k <= hi)%nat -> nth k nc7 0 == c) ->
        forall i, (lo <= i <= hi)%nat -> ~ In i peaks).
Proof.
  split; [reflexivity|].
  apply (pick_peaks_iff (lib := reference_library) nc7 3 (1 # 10)).
  reflexivity.
Defined.

(** ** Embedding *)

Lemma slice_in_range {A : Type} (l : list A) (a b : nat) :
  (a <= b <= length l)%nat ->
  slice l (Z.of_nat a) (Z.of_nat b) = firstn (b - a) (skipn a l).
Proof.
  intros H. unfold slice, clip.
  destruct (Z.ltb_spec (Z.of_nat a) 0); [lia|].
  destruct (Z.ltb_spec (Z.of_nat b) 0); [lia|].
  rewrite !Z.min_l by lia. now rewrite !Nat2Z.id.
Qed.

Lemma index_in_range {A : Type} (d : A) (l : list A) (k : nat) :
  (k < length l)%nat -> index l (Z.of_nat k) = Ok (nth k l d).
Proof.
  intros H. unfold index.
  destruct (Z.ltb_spec (Z.of_nat k) 0); [lia|].
  destruct (Z.leb_spec 0 (Z.of_nat k)); [|lia].
  destruct (Z.ltb_spec (Z.of_nat k) (Z.of_nat (length l))); [|lia].
  cbn [andb]. rewrite Nat2Z.id. now rewrite (@nth_error_nth' _ l k d).
Qed.

Lemma length_concat_uniform (D : nat) (l : list (list Q)) :
  Forall (fun r => length r = D) l -> length (concat l) = (length l * D)%nat.
Proof.
  induction 1 as [|r l Hr _ IH]; simpl; [reflexivity|].
  rewrite length_app, IH, Hr. reflexivity.
Qed.

Lemma Forall_firstn_skipn {A : Type} (P : A -> Prop) (l : list A) (a k : nat) :
  Forall P l -> Forall P (firstn k (skipn a l)).
Proof.
  intros H. rewrite Forall_forall in *. intros x Hx. apply H.
  rewrite <- (firstn_skipn a l). apply in_or_app. right.
  rewrite <- (firstn_skipn k (skipn a l)). apply in_or_app. now left.
Qed.

Lemma int_whole (x : Q) (z : Z) : x == inject_Z z -> int x = z.
Proof.
  destruct x as [a b]. unfold Qeq, int. simpl. intros H.
  rewrite Z.mul_1_r in H. subst a. apply Z.quot_mul. discriminate.
Qed.

Lemma int_floor (x : Q) : 0 <= x -> int x = Qfloor x.
Proof.
  destruct x as [a b]. unfold Qle, int, Qfloor. simpl. intros H.
  apply Z.quot_div_nonneg; lia.
Qed.

Lemma mod1_range (m : Q) : 0 <= mod1 m /\ mod1 m < 1.
Proof.
  unfold mod1. pose proof (Qfloor_le m) as H1. pose proof (Qlt_floor m) as H2.
  rewrite inject_Z_plus in H2. change (inject_Z 1) with 1 in H2. lra.
Qed.

Lemma length_embedded_row (X : array2) (fl z i : nat) :
  wf X -> (i + fl < shape0 X)%nat -> (z <= ncols X)%nat ->
  length (embedded_row X fl z i) = (fl * ncols X + z)%nat.
Proof.
  intros Hwf Hi Hz. unfold embedded_row, shape0 in *. rewrite length_app.
  rewrite (length_concat_uniform (D := ncols X))
    by (apply Forall_firstn_skipn; exact Hwf).
  rewrite firstn_length_le by (rewrite length_skipn; lia).
  rewrite firstn_length_le; [reflexivity|].
  unfold wf in Hwf. rewrite Forall_forall in Hwf.
  rewrite (Hwf (nth (i + fl) (rows X) [])) by (apply nth_In; lia). exact Hz.
Qed.

(** The embedding whenever the fractional part of [m] covers a whole number
    [z] of feature dimensions: [n - ceil(m)] rows of [floor(m) * D + z]
    entries. *)
Lemma embedded_space_whole (X : array2) (m : Q) (z : Z) :
  wf X -> 0 <= m ->
  mod1 m * inject_Z (Z.of_nat (shape1 X)) == inject_Z z ->
  (Qceiling m <= Z.of_nat (shape0 X))%Z ->
  embedded_space X m =
  Ok (mk2 (Z.to_nat (Qfloor m) * ncols X + Z.to_nat z)
          (map (embedded_row X (Z.to_nat (Qfloor m)) (Z.to_nat z))
               (seq 0 (shape0 X - Z.to_nat (Qceiling m))))).
Proof.
  intros Hwf Hm Hz Hce. unfold embedded_space.
  set (D := shape1 X) in *. set (n := shape0 X) in *.
  assert (Hfl0 : (0 <= Qfloor m)%Z)
    by (rewrite <- (Qfloor_Z 0); apply Qfloor_resp_le; exact Hm).
  assert (Hflce : (Qfloor m <= Qceiling m)%Z)
    by (rewrite Zle_Qle; apply Qle_floor_ceiling).
  destruct (mod1_range m) as [Hf0 Hf1].
  assert (HD0 : 0 <= inject_Z (Z.of_nat D))
    by (change 0 with (inject_Z 0); rewrite <- Zle_Qle; lia).
  assert (Hz0 : (0 <= z)%Z).
  { rewrite Zle_Qle, <- Hz. now apply Qmult_le_0_compat. }
  assert (HzD : (z <= Z.of_nat D)%Z).
  { rewrite Zle_Qle, <- Hz.
    rewrite <- (Qmult_1_l (inject_Z (Z.of_nat D))) at 2.
    apply Qmult_le_compat_r; [now apply Qlt_le_weak|exact HD0]. }
  assert (Hw : Qceiling (inject_Z (Z.of_nat D) * m)
               = (Qfloor m * Z.of_nat D + z)%Z).
  { rewrite <- (Qceiling_Z (Qfloor m * Z.of_nat D + z)). apply Qceiling_comp.
    rewrite inject_Z_plus, inject_Z_mult, <- Hz. unfold mod1. ring. }
  rewrite Hw, (int_whole Hz), (int_floor Hm).
  destruct (Z.ltb_spec (Z.of_nat n - Qceiling m) 0); [lia|].
  destruct (Z.ltb_spec (Qfloor m * Z.of_nat D + z) 0); [nia|].
  cbn [orb].
  replace (Z.to_nat (Z.of_nat n - Qceiling m))
    with (n - Z.to_nat (Qceiling m))%nat by lia.
  replace (Z.to_nat (Qfloor m * Z.of_nat D + z))
    with (Z.to_nat (Qfloor m) * D + Z.to_nat z)%nat by nia.
  rewrite mapM_ok
    with (g := embedded_row X (Z.to_nat (Qfloor m)) (Z.to_nat z)); [reflexivity|].
  intros i Hi. apply in_seq in Hi.
  set (fl := Z.to_nat (Qfloor m)) in *.
  assert (Hi2 : (i + fl < length (rows X))%nat) by (unfold n, shape0 in *; lia).
  replace (Z.of_nat i + Qfloor m)%Z with (Z.of_nat (i + fl)) by lia.
  rewrite slice_in_range by lia.
  rewrite (index_in_range [] _ Hi2). cbn [bind].
  assert (Hs : slice_to (nth (i + fl) (rows X) []) z
               = firstn (Z.to_nat z) (nth (i + fl) (rows X) [])).
  { assert (Hrow : length (nth (i + fl) (rows X) []) = D).
    { unfold wf in Hwf. rewrite Forall_forall in Hwf. apply Hwf. now apply nth_In. }
    unfold slice_to. rewrite <- (Z2Nat.id z Hz0) at 1.
    rewrite (slice_in_range _ (a := 0)) by lia. now rewrite Nat.sub_0_r. }
  rewrite Hs. replace (i + fl - i)%nat with fl by lia.
  apply assign_row_exact.
  apply length_embedded_row; [exact Hwf|exact Hi2|unfold D, shape1 in HzD; lia].
Qed.

(** The embedding is well formed, with [n - ceil(m)] rows. *)
Lemma embedded_space_shape (X : array2) (m : Q) (z : Z) :
  wf X -> 0 <= m ->
  mod1 m * inject_Z (Z.of_nat (shape1 X)) == inject_Z z ->
  (Qceiling m <= Z.of_nat (shape0 X))%Z ->
  exists E,
    embedded_space X m = Ok E /\ wf E /\
    shape0 E = (shape0 X - Z.to_nat (Qceiling m))%nat /\
    ncols E = (Z.to_nat (Qfloor m) * ncols X + Z.to_nat z)%nat.
Proof.
  intros Hwf Hm Hz Hce. eexists. split; [exact (embedded_space_whole Hwf Hm Hz Hce)|].
  split; [|split; [|reflexivity]].
  - unfold wf. cbn [rows ncols]. apply Forall_forall. intros r Hr.
    apply in_map_iff in Hr. destruct Hr as [i [<- Hi]]. apply in_seq in Hi.
    assert (Hflce : (Qfloor m <= Qceiling m)%Z)
      by (rewrite Zle_Qle; apply Qle_floor_ceiling).
    apply length_embedded_row; [exact Hwf|lia|].
    destruct (mod1_range m) as [Hf0 Hf1].
    assert (HzD : (z <= Z.of_nat (shape1 X))%Z).
    { rewrite Zle_Qle, <- Hz.
      rewrite <- (Qmult_1_l (inject_Z (Z.of_nat (shape1 X)))) at 2.
      apply Qmult_le_compat_r; [now apply Qlt_le_weak|].
      change 0 with (inject_Z 0). rewrite <- Zle_Qle. lia. }
    unfold shape1 in HzD. lia.
  - unfold shape0. cbn [rows]. now rewrite length_map, length_seq.
Qed.

(** The embedding of 100 frames of 12 dimensions with m = 8: 92 rows of 96
    entries. *)
Lemma embedded_space_100_12_8 (X : array2) :
  wf X -> shape0 X = 100%nat -> ncols X = 12%nat ->
  exists E, embedded_space X 8 = Ok E /\ wf E /\ shape0 E = 92%nat /\ ncols E = 96%nat.
Proof.
  intros Hwf Hn HD.
  destruct (@embedded_space_shape X 8 0 Hwf) as [E [HE [HwfE [H0 H1]]]].
  - discriminate.
  - unfold shape1. rewrite HD. reflexivity.
  - rewrite Hn. discriminate.
  - exists E. rewrite Hn in H0. rewrite HD in H1. auto.
Qed.

(** An order with a fractional part that covers a whole number of
    dimensions: m = 3/2 on frames of 2 dimensions. *)
Lemma embedded_space_fractional_whole :
  embedded_space (mk2 2 [[1; 2]; [3; 4]; [5; 6]]) (3 # 2) = Ok (mk2 3 [[1; 2; 3]]).
Proof. reflexivity. Qed.

(** C5.  On three frames of 3 dimensions with m = 3/2 the embedding raises:
    the row built has 3 * int(m) + int((m % 1) * 3) = 4 entries, the row
    allocated has ceil(3 * m) = 5. *)
Theorem embedded_space_fractional_raises :
  wf R3 /\ shape0 R3 = 3%nat /\ shape1 R3 = 3%nat /\
  1 <= 3 # 2 /\ (Z.of_nat (shape0 R3) > Qceiling (3 # 2))%Z /\
  embedded_space R3 (3 # 2) = Raise ValueError.
Proof.
  split; [repeat constructor|]. repeat (split; [reflexivity || discriminate|]).
  reflexivity.
Qed.

(** ** Shapes through the pipeline *)

Lemma circular_shift_square (R : array2) :
  square R ->
  exists L, circular_shift R = Ok L /\ square L /\ shape0 L = shape0 R.
Proof.
  intros Hsq. pose proof (square_tabulate Hsq) as HR.
  set (n := shape0 R) in *.
  exists (tabulate n n (fun i j => entry R ((i + j) mod n)%nat j)).
  split; [rewrite HR at 1; apply circular_shift_tabulate|].
  split; [|apply shape0_tabulate].
  split; [apply tabulate_wf|]. now rewrite shape0_tabulate.
Qed.

Lemma transpose_shape (X : array2) :
  wf (transpose X) /\ shape0 (transpose X) = ncols X /\
  ncols (transpose X) = shape0 X.
Proof.
  unfold transpose, wf, shape0. cbn [rows ncols]. split; [|split].
  - apply Forall_forall. intros r Hr. apply in_map_iff in Hr.
    destruct Hr as [j [<- _]]. unfold col. now rewrite length_map.
  - now rewrite length_map, length_seq.
  - reflexivity.
Qed.

Section Shapes.

Context {lib : Library}.
Hypothesis contract : library_contract lib.

Lemma gaussian_filter_columns (X : array2) (M : Q) :
  exists Y, gaussian_filter X M 1 = Ok Y /\ wf Y /\
            shape0 Y = shape0 X /\ ncols Y = ncols X.
Proof.
  unfold gaussian_filter.
  rewrite mapM_ok
    with (g := fun j => filters_gaussian_filter (col X j) (M / 2)).
  - cbn [bind]. eexists. split; [reflexivity|].
    destruct (transpose_shape
                (mk2 (shape0 X)
                     (map (fun j => filters_gaussian_filter (col X j) (M / 2))
                          (seq 0 (ncols X))))) as [Hwf [H0 H1]].
    split; [exact Hwf|]. split.
    + rewrite H0. reflexivity.
    + rewrite H1. unfold shape0. cbn [rows]. now rewrite length_map, length_seq.
  - intros j _. apply assign_row_exact.
    rewrite (gaussian_length contract). unfold col. now rewrite length_map.
Qed.

Lemma gaussian_filter_rows (X : array2) (M : Q) :
  wf X ->
  exists Y, gaussian_filter X M 0 = Ok Y /\ wf Y /\
            shape0 Y = shape0 X /\ ncols Y = ncols X.
Proof.
  intros Hwf. unfold gaussian_filter.
  rewrite mapM_ok with (g := fun r => filters_gaussian_filter r (M / 2)).
  - cbn [bind]. eexists. split; [reflexivity|]. split; [|split].
    + unfold wf in *. cbn [rows ncols]. rewrite Forall_forall in *.
      intros r Hr. apply in_map_iff in Hr. destruct Hr as [r0 [<- Hr0]].
      rewrite (gaussian_length contract). now apply Hwf.
    + unfold shape0. cbn [rows]. now rewrite length_map.
    + reflexivity.
  - intros r Hr. apply assign_row_exact. rewrite (gaussian_length contract).
    unfold wf in Hwf. rewrite Forall_forall in Hwf. now apply Hwf.
Qed.

End Shapes.

(** ** Boundary assembly *)

Lemma sorted_snoc {A : Type} (R : A -> A -> Prop) (l : list A) (x : A) :
  StronglySorted R l -> Forall (fun y => R y x) l -> StronglySorted R (l ++ [x]).
Proof.
  induction 1 as [|a l Hs IH Ha]; intros Hx; simpl.
  - constructor; constructor.
  - inversion Hx; subst. constructor; [apply IH; assumption|].
    apply Forall_app. split; [exact Ha|]. constructor; [assumption|constructor].
Qed.

Lemma sorted_map {A B : Type} (R : A -> A -> Prop) (R' : B -> B -> Prop)
      (P : A -> Prop) (f : A -> B) (l : list A) :
  (forall a b, P a -> P b -> R a b -> R' (f a) (f b)) ->
  Forall P l -> StronglySorted R l -> StronglySorted R' (map f l).
Proof.
  intros Hf HP Hs. induction Hs as [|a l Hs IH Ha]; simpl; [constructor|].
  inversion HP; subst. constructor; [apply IH; assumption|].
  rewrite Forall_forall in *. intros y Hy. apply in_map_iff in Hy.
  destruct Hy as [b [<- Hb]]. apply Hf; auto.
Qed.

Lemma sorted_nth (l : list Q) (i j : nat) :
  StronglySorted Qlt l -> (i < j < length l)%nat -> nth i l 0 < nth j l 0.
Proof.
  intros Hs. revert i j. induction Hs as [|a l Hs IH Ha]; intros i j Hij.
  - simpl in Hij. lia.
  - destruct j as [|j]; [lia|]. destruct i as [|i]; simpl.
    + rewrite Forall_forall in Ha. apply Ha. apply nth_In. simpl in Hij. lia.
    + apply IH. simpl in Hij. lia.
Qed.

Lemma mapM_index (frame_times : list Q) (idxs : list Z) :
  Forall (fun k => (0 <= k < Z.of_nat (length frame_times))%Z) idxs ->
  mapM (index frame_times) idxs
  = Ok (map (fun k => nth (Z.to_nat k) frame_times 0) idxs).
Proof.
  intros H. apply mapM_ok. rewrite Forall_forall in H. intros k Hk.
  apply H in Hk. rewrite <- (Z2Nat.id k) at 1 by lia.
  apply index_in_range. lia.
Qed.

Section Process.

Context {lib : Library} {itf : SegmenterInterface}.
Hypothesis contract : library_contract lib.

(** The re-aligned peaks are strictly increasing frame indices strictly
    between the first and the last frame. *)
Lemma est_bounds_interior (cfg : config) (F : array2) :
  wf F -> ((20 < shape0 F)%nat -> embeddable (m_embedded cfg) F) ->
  exists bs,
    est_bounds cfg F = Ok bs /\ StronglySorted Z.lt bs /\
    Forall (fun b => (1 <= b <= Z.of_nat (shape0 F) - 2)%Z) bs.
Proof.
  intros Hwf Hemb. unfold est_bounds.
  destruct (Nat.ltb_spec 20 (shape0 F)) as [Hlong|Hshort].
  2:{ exists []. split; [reflexivity|]. split; constructor. }
  destruct (Hemb Hlong) as [Hm [[z Hz] Hce]].
  set (m := m_embedded cfg) in *.
  destruct (@embedded_space_shape F m z Hwf Hm Hz) as [E [HE [HwfE [HE0 _]]]];
    [lia|].
  rewrite HE. cbn [bind].
  set (R := librosa_recurrence_matrix _ _).
  destruct (recurrence_square contract (transpose E)
              (k_nearest cfg * inject_Z (Z.of_nat (shape0 F)))) as [HRsq HR0].
  fold R in HRsq, HR0.
  destruct (circular_shift_square HRsq) as [L [HL [HLsq HL0]]].
  rewrite HL. cbn [bind].
  destruct (gaussian_filter_columns contract (transpose L) (M_gaussian cfg))
    as [SF1 [HSF1 [Hwf1 [H10 _]]]].
  rewrite HSF1. cbn [bind].
  destruct (gaussian_filter_rows contract 1 Hwf1) as [SF [HSF [_ [HSF0 _]]]].
  rewrite HSF. cbn [bind].
  assert (HN : shape0 SF = (shape0 F - Z.to_nat (Qceiling m))%nat).
  { rewrite HSF0, H10. destruct (transpose_shape L) as [_ [-> _]].
    destruct HLsq as [_ ->]. rewrite HL0, HR0.
    destruct (transpose_shape E) as [_ [_ ->]]. exact HE0. }
  assert (Hce0 : (0 <= Qceiling m)%Z)
    by (rewrite <- (Qceiling_Z 0); apply Qceiling_resp_le; exact Hm).
  destruct (@compute_nc_length lib SF) as [nc [Hnc Hlen]]; [lia|].
  rewrite Hnc. cbn [bind].
  rewrite pick_peaks_filter by apply (median_length contract). cbn [bind].
  set (peaks := filter _ _).
  assert (Hpk : Forall (fun p => (1 <= p)%nat /\ (p + 2 <= length nc)%nat) peaks).
  { apply Forall_forall. intros p Hp. apply filter_In in Hp.
    destruct Hp as [Hp _]. apply in_seq in Hp. lia. }
  assert (Hc0 : (0 <= Qceiling (m / 2))%Z).
  { rewrite <- (Qceiling_Z 0). apply Qceiling_resp_le.
    change (inject_Z 0) with 0.
    apply Qle_shift_div_l; [reflexivity|]. lra. }
  assert (Hc1 : (Qceiling (m / 2) <= Qceiling m)%Z).
  { apply Qceiling_resp_le. apply Qle_shift_div_r; [reflexivity|]. lra. }
  eexists. split; [reflexivity|]. split.
  - apply sorted_map with (R := lt) (P := fun _ => True).
    + intros a b _ _ Hab. lia.
    + apply Forall_forall. auto.
    + apply filter_sorted, seq_sorted.
  - rewrite Forall_forall in *. intros b Hb. apply in_map_iff in Hb.
    destruct Hb as [p [<- Hp]]. apply Hpk in Hp. lia.
Qed.

(** What [process] assembles on a runnable input: a leading 0, the frame
    times at the first frame, at the re-aligned peaks and at the last
    frame, a trailing [dur], and one label -1 per interval. *)
Lemma process_estimates_ok (cfg : config) (F : array2) (frame_times : list Q)
      (dur : Q) :
  runnable cfg F frame_times ->
  exists bs,
    StronglySorted Z.lt bs /\
    Forall (fun b => (1 <= b <= Z.of_nat (shape0 F) - 2)%Z) bs /\
    process_estimates cfg F frame_times dur
    = Ok ([0] ++ map (fun k => nth (Z.to_nat k) frame_times 0)
                     ([0%Z] ++ bs ++ [(Z.of_nat (length frame_times) - 1)%Z])
              ++ [dur],
          repeat (-1) (length bs + 3)).
Proof.
  intros [Hwf [Hemb [HT H1]]].
  destruct (est_bounds_interior cfg Hwf Hemb) as [bs [Hbs [Hsorted Hrange]]].
  exists bs. split; [exact Hsorted|]. split; [exact Hrange|].
  unfold process_estimates. rewrite Hbs. cbn [bind].
  rewrite mapM_index.
  - cbn [bind]. f_equal. f_equal. change (1 * - (1)) with (-1). f_equal.
    rewrite !length_app, length_map, !length_app. simpl. lia.
  - apply Forall_app. split; [constructor; [lia|constructor]|].
    apply Forall_app. split; [|constructor; [lia|constructor]].
    rewrite Forall_forall in *. intros b Hb. apply Hrange in Hb. lia.
Qed.

(** C1, amended.  On a runnable input (non-empty frame times, one per
    frame at least, an embedding order the embedding accepts) the times that
    [process] assembles begin with 0 and end with [dur]; they are strictly
    increasing when there are two frame times or more, strictly increasing
    and strictly between 0 and [dur].  [process] returns what
    [_postprocess] makes of them. *)
Theorem process_times_increasing (cfg : config) (F : array2)
        (frame_times : list Q) (dur : Q) :
  runnable cfg F frame_times ->
  exists times labels,
    process_estimates cfg F frame_times dur = Ok (times, labels) /\
    process cfg F frame_times dur = _postprocess times labels /\
    hd_error times = Some 0 /\ last times 0 = dur /\
    ((2 <= length frame_times)%nat ->
     StronglySorted Qlt frame_times ->
     Forall (fun t => 0 < t /\ t < dur) frame_times ->
     StronglySorted Qlt times).
Proof.
  intros Hrun. pose proof Hrun as [_ [_ [HT _]]].
  destruct (process_estimates_ok dur Hrun) as [bs [Hsorted [Hrange Hp]]].
  do 2 eexists. split; [exact Hp|].
  split; [unfold process; rewrite Hp; reflexivity|].
  split; [reflexivity|]. split.
  { rewrite app_assoc. apply last_last. }
  intros H2 Hft Hin.
  set (T := Z.of_nat (length frame_times)) in *.
  set (g := fun k : Z => nth (Z.to_nat k) frame_times 0).
  assert (Hg : forall k, (0 <= k < T)%Z -> 0 < g k /\ g k < dur).
  { intros k Hk. rewrite Forall_forall in Hin. apply Hin. apply nth_In.
    unfold T in Hk. lia. }
  assert (Hb : forall b, In b bs -> (1 <= b <= T - 2)%Z).
  { intros b Hb. rewrite Forall_forall in Hrange. apply Hrange in Hb.
    unfold T. lia. }
  assert (Hidx : StronglySorted Z.lt ([0%Z] ++ bs ++ [(T - 1)%Z])).
  { cbn [app]. constructor.
    - apply sorted_snoc; [exact Hsorted|].
      apply Forall_forall. intros b Hin'. apply Hb in Hin'. lia.
    - apply Forall_app. split.
      + apply Forall_forall. intros b Hin'. apply Hb in Hin'. lia.
      + constructor; [unfold T; lia|constructor]. }
  assert (Hall : Forall (fun k => (0 <= k < T)%Z) ([0%Z] ++ bs ++ [(T - 1)%Z])).
  { apply Forall_app. split; [constructor; [unfold T; lia|constructor]|].
    apply Forall_app. split; [|constructor; [unfold T; lia|constructor]].
    apply Forall_forall. intros b Hin'. apply Hb in Hin'. lia. }
  cbn [app]. constructor.
  - apply sorted_snoc.
    + apply sorted_map with (R := Z.lt) (P := fun k => (0 <= k < T)%Z);
        [|exact Hall|exact Hidx].
      intros a b Ha Hb' Hab. unfold g. apply sorted_nth; [exact Hft|].
      unfold T in *. lia.
    + apply Forall_forall. intros t Ht. apply in_map_iff in Ht.
      destruct Ht as [k [<- Hk]]. rewrite Forall_forall in Hall.
      apply Hg, Hall, Hk.
  - assert (Hd : 0 < dur).
    { destruct (Hg 0%Z) as [Ha Hb']; [unfold T; lia|].
      eapply Qlt_trans; eassumption. }
    apply Forall_app. split; [|constructor; [exact Hd|constructor]].
    apply Forall_forall. intros t Ht. apply in_map_iff in Ht.
    destruct Ht as [k [<- Hk]]. rewrite Forall_forall in Hall.
    apply Hg, Hall, Hk.
Qed.

End Process.

Section ShortTrack.

Context {lib : Library} {itf : SegmenterInterface}.


(** The assembly raises on empty frame times, before [_postprocess]. *)
Lemma process_estimates_no_times (cfg : config) (F : array2) (dur : Q) :
  (shape0 F <= 20)%nat -> process_estimates cfg F [] dur = Raise IndexError.
Proof.
  intros H. unfold process_estimates, est_bounds.
  destruct (Nat.ltb_spec 20 (shape0 F)); [lia|]. reflexivity.
Qed.

(** C2, amended.  For at most 20 frames and non-empty frame times,
    [process] runs no stage of the pipeline and assembles four times, 0,
    the first frame time, the last frame time and [dur], with three labels
    -1, whatever the configuration; it returns what [_postprocess] makes of
    them. *)
Theorem process_short_track (cfg : config) (F : array2) (t0 : Q)
        (rest : list Q) (dur : Q) :
  (shape0 F <= 20)%nat ->
  est_bounds cfg F = Ok [] /\
  process_estimates cfg F (t0 :: rest) dur
  = Ok ([0; t0; last (t0 :: rest) 0; dur], [-1; -1; -1]) /\
  process cfg F (t0 :: rest) dur
  = _postprocess [0; t0; last (t0 :: rest) 0; dur] [-1; -1; -1].
Proof.
  intros H.
  assert (Hb : est_bounds cfg F = Ok []).
  { unfold est_bounds. destruct (Nat.ltb_spec 20 (shape0 F)); [lia|reflexivity]. }
  assert (Hp : process_estimates cfg F (t0 :: rest) dur
               = Ok ([0; t0; last (t0 :: rest) 0; dur], [-1; -1; -1])).
  { unfold process_estimates. rewrite Hb. cbn [bind app].
    rewrite mapM_index.
    - cbn [bind map app]. f_equal. f_equal. f_equal. f_equal. f_equal.
      replace (Z.of_nat (length (t0 :: rest)) - 1)%Z
        with (Z.of_nat (length rest)) by (simpl length; lia).
      rewrite Nat2Z.id. clear. revert t0.
      induction rest as [|a l IH]; intros t0; [reflexivity|].
      change (nth (length (a :: l)) (t0 :: a :: l) 0)
        with (nth (length l) (a :: l) 0).
      rewrite IH. reflexivity.
    - constructor; [simpl length; lia|].
      constructor; [simpl length; lia|constructor]. }
  split; [exact Hb|]. split; [exact Hp|].
  unfold process. rewrite Hp. reflexivity.
Qed.

End ShortTrack.


(** ** The reference instance and concrete runs *)

Lemma reference_library_contract : library_contract reference_library.
Proof.
  constructor.
  - intros data k. cbn [librosa_recurrence_matrix reference_library].
    unfold equal_columns, square, wf, shape0. cbn [rows ncols].
    rewrite length_map, length_seq. split; [split|]; try reflexivity.
    apply Forall_forall. intros r Hr. apply in_map_iff in Hr.
    destruct Hr as [i [<- _]]. now rewrite length_map, length_seq.
  - intros a s. cbn [filters_gaussian_filter reference_library].
    unfold smooth3. now rewrite length_map, length_seq.
  - intros a L. apply length_moving_median.
Qed.

Lemma runnable_F24 : runnable cfg0 F24 (ramp 1 24).
Proof.
  split; [repeat constructor|]. split; [|split; [vm_compute; lia|vm_compute; lia]].
  intros _. split; [discriminate|]. split; [|reflexivity].
  exists 0%Z. reflexivity.
Qed.

Lemma process_F24 :
  process_estimates cfg0 F24 (ramp 1 24) 30
  = Ok ([0; 1; 8; 17; 24; 30], [-1; -1; -1; -1; -1]).
Proof. vm_compute. reflexivity. Qed.

Lemma process_times_increasing_witness :
  runnable cfg0 F24 (ramp 1 24) /\
  exists times labels,
    process_estimates cfg0 F24 (ramp 1 24) 30 = Ok (times, labels) /\
    process (itf := raw_estimates) cfg0 F24 (ramp 1 24) 30 = Ok (times, labels) /\
    hd_error times = Some 0 /\ last times 0 = 30 /\ StronglySorted Qlt times.
Proof.
  split; [exact runnable_F24|].
  destruct (process_times_increasing (itf := raw_estimates)
              reference_library_contract 30 runnable_F24)
    as [times [labels [Hp [Hq [Hhd [Hlast Hinc]]]]]].
  exists times, labels. repeat split; try assumption.
  apply Hinc.
  - vm_compute. lia.
  - repeat constructor.
  - repeat constructor.
Defined.


(** C1, as stated: without frames and frame times [process] raises before
    [_postprocess] is reached, whatever [_postprocess] is; and on ten
    frames timed 0, 1, ..., 9 with duration 9 the assembled times repeat
    both 0 and 9. *)
Lemma process_times_not_increasing :
  (forall itf : SegmenterInterface,
      process (itf := itf) cfg0 (mk2 1 []) [] 1 = Raise IndexError) /\
  process_estimates cfg0 F10 (ramp 0 10) 9 = Ok ([0; 0; 9; 9], [-1; -1; -1]) /\
  ~ StronglySorted Qlt [0; 0; 9; 9].
Proof.
  split; [intros itf; reflexivity|]. split; [vm_compute; reflexivity|].
  intros H. apply StronglySorted_inv in H. destruct H as [_ H].
  inversion H; subst. discriminate.
Qed.

(** C2, as stated: on ten frames timed 1, 2, ..., 10 with duration 11 the
    assembled times are 0, 1, 10, 11 with three labels, not 0, 11 with one. *)
Lemma process_short_track_four_times :
  (shape0 F10 <= 20)%nat /\
  process_estimates cfg0 F10 (ramp 1 10) 11 = Ok ([0; 1; 10; 11], [-1; -1; -1]) /\
  process (itf := raw_estimates) cfg0 F10 (ramp 1 10) 11 <> Ok ([0; 11], [-1]).
Proof.
  split; [vm_compute; lia|]. split; [vm_compute; reflexivity|].
  vm_compute. discriminate.
Qed.

Lemma process_short_track_witness :
  (shape0 F10 <= 20)%nat /\
  est_bounds cfg0 F10 = Ok [] /\
  process_estimates cfg0 F10 (1 :: ramp 2 9) 11
  = Ok ([0; 1; last (1 :: ramp 2 9) 0; 11], [-1; -1; -1]) /\
  process (itf := raw_estimates) cfg0 F10 (1 :: ramp 2 9) 11
  = Ok ([0; 1; last (1 :: ramp 2 9) 0; 11], [-1; -1; -1]).
Proof.
  assert (H : (shape0 F10 <= 20)%nat) by (vm_compute; lia).
  split; [exact H|].
  exact (process_short_track (lib := reference_library) (itf := raw_estimates)
           cfg0 F10 1 (ramp 2 9) 11 H).
Defined.

(** * Further properties of the code *)

(** ** More on the lag transform *)

Lemma mapM_app {A B : Type} (f : A -> result B) (l1 l2 : list A) :
  mapM f (l1 ++ l2)
  = (ys1 <- mapM f l1 ;; ys2 <- mapM f l2 ;; Ok (ys1 ++ ys2)).
Proof.
  induction l1 as [|x l1 IH]; simpl.
  - destruct (mapM f l2); reflexivity.
  - destruct (f x); simpl; [|reflexivity]. rewrite IH.
    destruct (mapM f l1); simpl; [|reflexivity].
    destruct (mapM f l2); reflexivity.
Qed.

Lemma circular_shift_n_times (R : array2) :
  square R -> iterM (shape0 R) circular_shift R = Ok R.
Proof.
  intros Hsq. pose proof (square_tabulate Hsq) as HR.
  set (n := shape0 R) in *.
  rewrite HR at 1. rewrite iterM_circular_shift. f_equal.
  etransitivity; [|symmetry; exact HR].
  apply tabulate_ext. intros i j Hi Hj.
  rewrite Nat.mul_comm, Nat.Div0.mod_add. now rewrite Nat.mod_small.
Qed.

(** X4.  The lag transform is injective on square matrices of one size:
    two such matrices with the same time-lag matrix are equal. *)
Theorem circular_shift_injective (R1 R2 : array2) :
  square R1 -> square R2 -> shape0 R1 = shape0 R2 ->
  circular_shift R1 = circular_shift R2 -> R1 = R2.
Proof.
  intros H1 H2 Hn Heq.
  pose proof (circular_shift_n_times H1) as E1.
  pose proof (circular_shift_n_times H2) as E2.
  rewrite <- Hn in E2. destruct (shape0 R1) as [|k] eqn:Hk.
  - destruct R1 as [c1 r1], R2 as [c2 r2]. destruct H1 as [_ Hc1], H2 as [_ Hc2].
    unfold shape0 in *. cbn [rows ncols] in *.
    destruct r1; [|discriminate]. destruct r2; [|simpl in Hn; discriminate].
    simpl in Hc1, Hc2. now subst.
  - cbn [iterM] in E1, E2. rewrite Heq in E1. rewrite E1 in E2. now inversion E2.
Qed.

Lemma circular_shift_injective_witness :
  square R3 /\ shape0 R3 = shape0 R3 /\
  circular_shift R3 = circular_shift R3 /\ R3 = R3.
Proof.
  assert (H : square R3) by (split; [repeat constructor | reflexivity]).
  split; [exact H|]. split; [reflexivity|]. split; [reflexivity|].
  exact (circular_shift_injective H H eq_refl eq_refl).
Defined.

Lemma col_tabulate (n m : nat) (f : nat -> nat -> Q) (j : nat) :
  (j < m)%nat -> col (tabulate n m f) j = map (fun i => f i j) (seq 0 n).
Proof.
  intros Hj. unfold col, tabulate. cbn [rows]. rewrite map_map.
  apply map_ext. intros i.
  rewrite nth_indep with (d' := f i 0%nat) by (now rewrite length_map, length_seq).
  rewrite (map_nth (fun b => f i b)). now rewrite seq_nth.
Qed.

Lemma map_seq_shift {A : Type} (g : nat -> A) (a k : nat) :
  map (fun i => g (i + a)%nat) (seq 0 k) = map g (seq a k).
Proof.
  revert a. induction k as [|k IH]; intros a; simpl; [reflexivity|].
  f_equal. rewrite <- (IH (S a)). rewrite <- seq_shift, map_map.
  apply map_ext. intros i. f_equal. lia.
Qed.

(** X5.  Column j of the time-lag matrix is column j of R rotated upwards
    by j places: the transform only moves entries within their column. *)
Theorem circular_shift_rotates_columns (R : array2) (j : nat) :
  square R -> (j < shape0 R)%nat ->
  exists L,
    circular_shift R = Ok L /\
    col L j = skipn j (col R j) ++ firstn j (col R j).
Proof.
  intros Hsq Hj. pose proof (square_tabulate Hsq) as HR.
  set (n := shape0 R) in *. set (e := entry R) in *.
  exists (tabulate n n (fun i k => e ((i + k) mod n)%nat k)).
  split; [rewrite HR at 1; apply circular_shift_tabulate|].
  assert (HcR : col R j = map (fun i => e i j) (seq 0 n))
    by (rewrite HR; apply col_tabulate; exact Hj).
  rewrite HcR, col_tabulate by exact Hj.
  assert (Hs : seq 0 n = seq 0 (n - j) ++ seq (n - j) j)
    by (rewrite <- seq_app; f_equal; lia).
  rewrite Hs at 1. rewrite map_app. f_equal.
  - rewrite skipn_map, skipn_seq. cbn [Nat.add].
    rewrite <- (map_seq_shift (fun i => e i j) j (n - j)).
    apply map_ext_in. intros i Hi. apply in_seq in Hi.
    now rewrite Nat.mod_small by lia.
  - rewrite firstn_map.
    assert (Hf : firstn j (seq 0 n) = seq 0 j).
    { replace n with (j + (n - j))%nat by lia. rewrite seq_app.
      rewrite firstn_app, length_seq, Nat.sub_diag. cbn [firstn].
      rewrite app_nil_r. apply firstn_all2. rewrite length_seq. lia. }
    rewrite Hf.
    rewrite <- (map_seq_shift (fun i => e ((i + j) mod n)%nat j) (n - j) j).
    apply map_ext_in. intros i Hi. apply in_seq in Hi. f_equal.
    replace (i + (n - j) + j)%nat with (i + 1 * n)%nat by lia.
    rewrite Nat.Div0.mod_add. apply Nat.mod_small. lia.
Qed.

Lemma circular_shift_rotates_columns_witness :
  square R3 /\
  exists L,
    circular_shift R3 = Ok L /\
    col L 1 = skipn 1 (col R3 1) ++ firstn 1 (col R3 1).
Proof.
  assert (H : square R3) by (split; [repeat constructor | reflexivity]).
  split; [exact H|]. apply (circular_shift_rotates_columns (j := 1) H).
  unfold shape0. simpl. lia.
Defined.

(** X6.  On a well-formed array that is not square the lag transform
    raises: IndexError when it has fewer columns than rows, ValueError when
    it has more columns than rows and at least two rows. *)
Theorem circular_shift_not_square (X : array2) :
  wf X -> (2 <= shape0 X)%nat -> shape0 X <> ncols X ->
  circular_shift X
  = Raise (if (ncols X <? shape0 X)%nat then IndexError else ValueError).
Proof.
  intros Hwf H2 Hne. unfold circular_shift.
  set (N := shape0 X) in *. set (c := ncols X) in *.
  assert (Hrow : forall i, (i < N)%nat ->
            exists r, nth_error (rows X) i = Some r /\ length r = c).
  { intros i Hi. exists (nth i (rows X) []). split.
    - apply nth_error_nth'. exact Hi.
    - unfold wf in Hwf. rewrite Forall_forall in Hwf. apply Hwf.
      apply nth_In. exact Hi. }
  assert (Hget : forall j, (j < N)%nat -> (j < c)%nat ->
            get2 X ((0 + j) mod N) j = Ok (entry X j j)).
  { intros j HjN Hjc. cbn [Nat.add]. rewrite Nat.mod_small by exact HjN.
    unfold get2, entry. destruct (Hrow j HjN) as [r [Hr Hlen]].
    rewrite Hr, (nth_error_nth _ _ [] Hr).
    now rewrite (@nth_error_nth' _ r j 0) by lia. }
  assert (Hhead : seq 0 N = 0%nat :: seq 1 (N - 1)).
  { destruct N as [|N']; [lia|]. replace (S N' - 1)%nat with N' by lia.
    reflexivity. }
  assert (Hfirst :
    (v <- mapM (fun j => get2 X ((0 + j) mod N) j) (seq 0 N) ;; assign_row c v)
    = Raise (if (c <? N)%nat then IndexError else ValueError)).
  { destruct (Nat.ltb_spec c N) as [Hlt|Hge].
    - assert (Hs : seq 0 N = seq 0 c ++ c :: seq (S c) (N - c - 1)).
      { replace N with (c + S (N - c - 1))%nat at 1 by lia.
        rewrite seq_app. reflexivity. }
      rewrite Hs, mapM_app.
      rewrite mapM_ok with (g := fun j => entry X j j)
        by (intros j Hj; apply in_seq in Hj; apply Hget; lia).
      cbn [bind mapM]. cbn [Nat.add]. rewrite Nat.mod_small by lia.
      unfold get2. destruct (Hrow c Hlt) as [r [Hr Hlen]]. rewrite Hr.
      assert (Hnone : nth_error r c = None) by (apply nth_error_None; lia).
      rewrite Hnone. reflexivity.
    - rewrite mapM_ok with (g := fun j => entry X j j)
        by (intros j Hj; apply in_seq in Hj; apply Hget; lia).
      cbn [bind]. unfold assign_row. rewrite length_map, length_seq.
      destruct (Nat.eqb_spec N c) as [E|_]; [lia|].
      rewrite Hhead. cbn [map]. destruct (N - 1)%nat as [|k] eqn:Hk; [lia|].
      reflexivity. }
  rewrite Hhead at 1. cbn [mapM]. rewrite Hfirst. reflexivity.
Qed.

Lemma circular_shift_not_square_witness :
  circular_shift W23 = Raise ValueError /\ circular_shift W32 = Raise IndexError.
Proof.
  split.
  - apply (circular_shift_not_square (X := W23)).
    + repeat constructor.
    + unfold shape0. simpl. lia.
    + discriminate.
  - apply (circular_shift_not_square (X := W32)).
    + repeat constructor.
    + unfold shape0. simpl. lia.
    + discriminate.
Defined.

(** ** More on peak picking *)

Lemma sorted_gap_count (l : list nat) (lo hi : nat) :
  StronglySorted lt l ->
  (forall i, In i l -> (lo <= i <= hi)%nat) ->
  (forall i, In i l -> ~ In (S i) l) ->
  (2 * length l <= hi + 2 - lo)%nat.
Proof.
  intros Hs. revert lo. induction Hs as [|a l Hs IH Ha]; intros lo Hr Hg.
  - simpl. lia.
  - assert (Hlo : (lo <= a <= hi)%nat) by (apply Hr; left; reflexivity).
    assert (Hrest : forall i, In i l -> (a + 2 <= i <= hi)%nat).
    { intros i Hi. rewrite Forall_forall in Ha. pose proof (Ha i Hi) as Hlt.
      destruct (Hr i (or_intror Hi)) as [_ Hhi].
      assert (i <> S a) by (intros ->; apply (Hg a); [left; reflexivity|right; exact Hi]).
      lia. }
    assert (IH' := IH (a + 2)%nat Hrest
                      (fun i Hi Hs' => Hg i (or_intror Hi) (or_intror Hs'))).
    destruct l as [|b l'].
    + simpl. lia.
    + destruct (Hrest b (or_introl eq_refl)). simpl length in *. lia.
Qed.

Section PeakSpacing.

Context {lib : Library}.

(** X7.  No two consecutive frames are both peaks, so a curve of n
    entries has at most (n - 1) / 2 peaks. *)
Theorem pick_peaks_not_adjacent (nc : list Q) (L : Z) (od : Q) :
  length (filters_median_filter nc L) = length nc ->
  exists peaks,
    pick_peaks nc L od = Ok peaks /\
    (forall i, In i peaks -> ~ In (S i) peaks) /\
    (2 * length peaks <= length nc - 1)%nat.
Proof.
  intros Hlen. eexists. split; [apply pick_peaks_filter; exact Hlen|].
  set (th := threshold nc L od).
  set (peaks := filter (is_peak nc th) (seq 1 (length nc - 1 - 1))).
  assert (Hp : forall i, In i peaks ->
            (1 <= i)%nat /\ (i + 2 <= length nc)%nat /\
            nth (i - 1) nc 0 < nth i nc 0 /\ nth (i + 1) nc 0 < nth i nc 0).
  { intros i Hi. apply filter_In in Hi. destruct Hi as [Hi Hpk].
    apply in_seq in Hi. unfold is_peak in Hpk.
    rewrite !andb_true_iff, !ltb_lt in Hpk. repeat split; try lia; tauto. }
  assert (Hgap : forall i, In i peaks -> ~ In (S i) peaks).
  { intros i Hi Hs. apply Hp in Hi. apply Hp in Hs.
    destruct Hi as [_ [_ [_ Hdown]]]. destruct Hs as [_ [_ [Hup _]]].
    rewrite Nat.add_1_r in Hdown. replace (S i - 1)%nat with i in Hup by lia.
    exact (Qlt_irrefl _ (Qlt_trans _ _ _ Hdown Hup)). }
  split; [exact Hgap|].
  destruct (length nc) as [|[|n]] eqn:Hn; [reflexivity|reflexivity|].
  pose proof (@sorted_gap_count peaks 1 n) as Hc.
  assert (Hb : (2 * length peaks <= n + 2 - 1)%nat).
  { apply Hc.
    - apply filter_sorted, seq_sorted.
    - intros i Hi. apply Hp in Hi. lia.
    - exact Hgap. }
  lia.
Qed.

End PeakSpacing.

Lemma pick_peaks_not_adjacent_witness :
  length (moving_median nc7 3) = length nc7 /\
  exists peaks,
    pick_peaks nc7 3 (1 # 10) = Ok peaks /\
    (forall i, In i peaks -> ~ In (S i) peaks) /\
    (2 * length peaks <= length nc7 - 1)%nat.
Proof.
  split; [reflexivity|].
  apply (pick_peaks_not_adjacent (lib := reference_library) nc7 3 (1 # 10)).
  reflexivity.
Defined.

(** ** More on the novelty curve *)

Lemma Forall2_map_same {A B : Type} (P : B -> A -> Prop) (f : A -> B) (l : list A) :
  (forall x, In x l -> P (f x) x) -> Forall2 P (map f l) l.
Proof.
  induction l as [|x l IH]; intros H; simpl; constructor.
  - apply H. left. reflexivity.
  - apply IH. intros y Hy. apply H. right. exact Hy.
Qed.

Section NoveltyScale.

Context {lib : Library}.

(** X8.  With a non-negative row distance and two successive rows at
    non-zero distance, the curve has one entry per row: entry i is the
    distance between rows i and i+1 divided by the largest such distance,
    and the last entry is 0.  The shift by |min| changes nothing. *)
Theorem compute_nc_rescales (X : array2) :
  (forall u v, 0 <= distance_euclidean u v) ->
  (exists i u v,
      nth_error (rows X) i = Some u /\ nth_error (rows X) (S i) = Some v /\
      ~ distance_euclidean u v == 0) ->
  exists nc hi,
    compute_nc X = Ok nc /\ amax (successive X) = Ok hi /\ 0 < hi /\
    Forall2 (fun y d => y == d / hi) nc (successive X ++ [0]).
Proof.
  intros Hpos [i [u [v [Hu [Hv Hd]]]]].
  assert (Hi : (S i < shape0 X)%nat)
    by (apply nth_error_Some; unfold shape0; congruence).
  rewrite compute_nc_unfold. cbv zeta.
  replace (shape0 X - (shape0 X - 1))%nat with 1%nat by lia.
  cbn [repeat]. set (nc0 := successive X ++ [0]).
  assert (Hdi : In (distance_euclidean u v) (successive X)).
  { unfold successive. apply in_map_iff. exists i. split.
    - rewrite Nat.add_1_r.
      now rewrite (nth_error_nth _ _ [] Hu), (nth_error_nth _ _ [] Hv).
    - apply in_seq. lia. }
  assert (Hs0 : forall x, In x (successive X) -> 0 <= x).
  { intros x Hx. unfold successive in Hx. apply in_map_iff in Hx.
    destruct Hx as [k [<- _]]. apply Hpos. }
  assert (H0 : forall x, In x nc0 -> 0 <= x).
  { intros x Hx. apply in_app_or in Hx. destruct Hx as [Hx|[<-|[]]].
    - now apply Hs0.
    - apply Qle_refl. }
  assert (Hz : In 0 nc0) by (apply in_or_app; right; left; reflexivity).
  destruct (amin_spec (a := nc0)) as [lo [Hlo [Hlo_in Hlo_le]]].
  { intros E. rewrite E in Hz. exact Hz. }
  rewrite Hlo. cbn [bind].
  assert (Hlo0 : Qabs lo == 0).
  { assert (E : lo == 0)
      by (apply Qle_antisym; [apply Hlo_le, Hz | apply H0, Hlo_in]).
    rewrite E. reflexivity. }
  set (nc1 := map (fun x => x + Qabs lo) nc0).
  destruct (amax_spec (a := nc1)) as [hi' [Hhi' [Hhi'_in Hhi'_le]]].
  { intros E. apply (in_map (fun x => x + Qabs lo)) in Hz.
    fold nc1 in Hz. rewrite E in Hz. exact Hz. }
  rewrite Hhi'. cbn [bind].
  destruct (amax_spec (a := successive X)) as [hi [Hhi [Hhi_in Hhi_le]]].
  { intros E. rewrite E in Hdi. exact Hdi. }
  assert (Hhi_pos : 0 < hi).
  { pose proof (Hhi_le _ Hdi) as Hge. pose proof (Hpos u v) as Hp.
    apply Qle_lt_or_eq in Hp. destruct Hp as [Hp|Hp].
    - eapply Qlt_le_trans; eassumption.
    - exfalso. apply Hd. symmetry. exact Hp. }
  assert (Heq : hi' == hi).
  { apply Qle_antisym.
    - unfold nc1 in Hhi'_in. apply in_map_iff in Hhi'_in.
      destruct Hhi'_in as [x [<- Hx]]. apply in_app_or in Hx.
      destruct Hx as [Hx|[<-|[]]].
      + apply Hhi_le in Hx. lra.
      + lra.
    - assert (Hin : In (hi + Qabs lo) nc1).
      { apply (in_map (fun x => x + Qabs lo)). apply in_or_app. now left. }
      apply Hhi'_le in Hin. lra. }
  exists (map (fun x => x / hi') nc1), hi.
  split; [reflexivity|]. split; [exact Hhi|]. split; [exact Hhi_pos|].
  unfold nc1. rewrite map_map. apply Forall2_map_same.
  intros x _. rewrite Hlo0, Heq, Qplus_0_r. reflexivity.
Qed.

End NoveltyScale.

Lemma compute_nc_rescales_witness :
  exists nc hi,
    compute_nc X3 = Ok nc /\ amax (successive X3) = Ok hi /\ 0 < hi /\
    Forall2 (fun y d => y == d / hi) nc (successive X3 ++ [0]).
Proof.
  apply (compute_nc_rescales (lib := reference_library) X3).
  - exact cityblock_nonneg.
  - exists 0%nat, [0; 0], [3; 0]. split; [reflexivity|]. split; [reflexivity|].
    vm_compute. discriminate.
Defined.

(** ** The filters *)

Lemma transpose_tabulate (n m : nat) (f : nat -> nat -> Q) :
  transpose (tabulate n m f) = tabulate m n (fun i j => f j i).
Proof.
  unfold transpose. rewrite shape0_tabulate. unfold tabulate at 2. cbn [ncols].
  unfold tabulate at 2. f_equal. apply map_ext_in. intros j Hj.
  apply in_seq in Hj. apply col_tabulate. lia.
Qed.

Lemma col_transpose (X : array2) (j : nat) :
  wf X -> (j < shape0 X)%nat -> col (transpose X) j = nth j (rows X) [].
Proof.
  intros Hwf Hj. pose proof (wf_tabulate Hwf) as HX.
  set (n := shape0 X) in *. set (c := ncols X) in *. set (e := entry X) in *.
  rewrite HX. rewrite transpose_tabulate, col_tabulate by exact Hj.
  unfold tabulate. cbn [rows].
  rewrite nth_indep with (d' := map (fun b => e 0%nat b) (seq 0 c))
    by (now rewrite length_map, length_seq).
  rewrite (map_nth (fun a => map (fun b => e a b) (seq 0 c))).
  now rewrite seq_nth.
Qed.

Section Filters.

Context {lib : Library}.
Hypothesis contract : library_contract lib.

(** X9.  On a well-formed array [gaussian_filter] keeps the shape for
    axis 0 and axis 1; for the axes -1 and -2 it returns the array as it
    came, unfiltered; for any other axis it raises IndexError. *)
Theorem gaussian_filter_shape (X : array2) (M : Q) (axis : Z) :
  wf X ->
  ((axis = 0 \/ axis = 1)%Z ->
   exists Y, gaussian_filter X M axis = Ok Y /\ wf Y /\
             shape0 Y = shape0 X /\ ncols Y = ncols X) /\
  ((axis = -1 \/ axis = -2)%Z -> gaussian_filter X M axis = Ok X) /\
  ((axis < -2 \/ 2 <= axis)%Z -> gaussian_filter X M axis = Raise IndexError).
Proof.
  intros Hwf. split; [|split].
  - intros [->| ->].
    + exact (gaussian_filter_rows contract M Hwf).
    + exact (gaussian_filter_columns contract X M).
  - intros [->| ->]; reflexivity.
  - intros H. destruct axis as [|p|p]; [lia| |].
    + destruct p; try reflexivity. lia.
    + destruct p as [q|q|]; [reflexivity| |lia].
      destruct q; try reflexivity. lia.
Qed.

(** X10.  Filtering the columns of the transpose is filtering the rows:
    [gaussian_filter(X.T, M, axis=1)] is the transpose of
    [gaussian_filter(X, M, axis=0)]. *)
Theorem gaussian_filter_transpose (X : array2) (M : Q) :
  wf X ->
  exists Y,
    gaussian_filter X M 0 = Ok Y /\
    gaussian_filter (transpose X) M 1 = Ok (transpose Y).
Proof.
  intros Hwf.
  exists (mk2 (ncols X) (map (fun r => filters_gaussian_filter r (M / 2)) (rows X))).
  split.
  - unfold gaussian_filter.
    rewrite mapM_ok with (g := fun r => filters_gaussian_filter r (M / 2)).
    + reflexivity.
    + intros r Hr. apply assign_row_exact. rewrite (gaussian_length contract).
      unfold wf in Hwf. rewrite Forall_forall in Hwf. now apply Hwf.
  - unfold gaussian_filter.
    destruct (transpose_shape X) as [_ [Hs0 Hs1]]. rewrite Hs0, Hs1.
    rewrite mapM_ok
      with (g := fun j => filters_gaussian_filter (nth j (rows X) []) (M / 2)).
    + cbn [bind]. f_equal. f_equal. f_equal.
      transitivity (map (fun r => filters_gaussian_filter r (M / 2))
                        (map (fun i => nth i (rows X) [])
                             (seq 0 (length (rows X))))).
      * now rewrite map_map.
      * now rewrite list_tabulate.
    + intros j Hj. apply in_seq in Hj.
      rewrite col_transpose by (try exact Hwf; lia).
      apply assign_row_exact. rewrite (gaussian_length contract).
      unfold wf in Hwf. rewrite Forall_forall in Hwf. rewrite Hwf.
      * unfold transpose. reflexivity.
      * apply nth_In. unfold shape0 in Hj. lia.
Qed.

Lemma median_filter_spec (X : array2) (M : Z) :
  wf X ->
  exists Y,
    median_filter X M = Ok Y /\ wf Y /\
    shape0 Y = shape0 X /\ ncols Y = ncols X /\
    forall j, (j < ncols X)%nat -> col Y j = filters_median_filter (col X j) M.
Proof.
  intros Hwf. unfold median_filter.
  set (cs := map (fun j => filters_median_filter (col X j) M) (seq 0 (ncols X))).
  rewrite mapM_ok with (g := fun j => filters_median_filter (col X j) M).
  2:{ intros j _. apply assign_row_exact.
      rewrite (median_length contract). unfold col. now rewrite length_map. }
  cbn [bind]. fold cs. set (Z := mk2 (shape0 X) cs).
  assert (HwfZ : wf Z).
  { unfold wf, Z, cs. cbn [rows ncols]. apply Forall_forall. intros r Hr.
    apply in_map_iff in Hr. destruct Hr as [j [<- _]].
    rewrite (median_length contract). unfold col. now rewrite length_map. }
  assert (HZ0 : shape0 Z = ncols X)
    by (unfold shape0, Z, cs; cbn [rows]; now rewrite length_map, length_seq).
  exists (transpose Z). split; [reflexivity|].
  destruct (transpose_shape Z) as [Hw [H0 H1]].
  split; [exact Hw|]. split; [rewrite H0; reflexivity|].
  split; [rewrite H1; exact HZ0|].
  intros j Hj. rewrite col_transpose by (try exact HwfZ; lia).
  unfold Z, cs. cbn [rows].
  rewrite nth_indep with (d' := filters_median_filter (col X 0) M)
    by (rewrite length_map, length_seq; exact Hj).
  rewrite (map_nth (fun k => filters_median_filter (col X k) M)).
  now rewrite seq_nth.
Qed.

(** X11.  On a well-formed array [median_filter] returns an array of the
    same shape whose column j is the library median filter of column j. *)
Theorem median_filter_columns (X : array2) (M : Z) :
  wf X ->
  exists Y,
    median_filter X M = Ok Y /\ wf Y /\
    shape0 Y = shape0 X /\ ncols Y = ncols X /\
    forall j, (j < ncols X)%nat -> col Y j = filters_median_filter (col X j) M.
Proof.
  exact (@median_filter_spec X M).
Qed.

End Filters.

Lemma gaussian_filter_shape_witness :
  wf R3 /\
  (exists Y, gaussian_filter R3 2 1 = Ok Y /\ wf Y /\
             shape0 Y = shape0 R3 /\ ncols Y = ncols R3) /\
  gaussian_filter R3 2 (-1) = Ok R3 /\
  gaussian_filter R3 2 2 = Raise IndexError.
Proof.
  assert (H : wf R3) by repeat constructor.
  split; [exact H|]. split; [|split].
  - apply (gaussian_filter_shape reference_library_contract 2 1 H). lia.
  - apply (gaussian_filter_shape reference_library_contract 2 (-1) H). lia.
  - apply (gaussian_filter_shape reference_library_contract 2 2 H). lia.
Defined.

Lemma gaussian_filter_transpose_witness :
  wf W23 /\
  exists Y,
    gaussian_filter W23 2 0 = Ok Y /\
    gaussian_filter (transpose W23) 2 1 = Ok (transpose Y).
Proof.
  assert (H : wf W23) by repeat constructor.
  split; [exact H|].
  exact (gaussian_filter_transpose reference_library_contract 2 H).
Defined.

Lemma median_filter_columns_witness :
  wf W32 /\
  exists Y,
    median_filter W32 3 = Ok Y /\ wf Y /\
    shape0 Y = shape0 W32 /\ ncols Y = ncols W32 /\
    forall j, (j < ncols W32)%nat -> col Y j = filters_median_filter (col W32 j) 3.
Proof.
  assert (H : wf W32) by repeat constructor.
  split; [exact H|].
  exact (median_filter_columns reference_library_contract 3 H).
Defined.

(** ** More on the embedding *)

Lemma Qceiling_unique (q : Q) (c : Z) :
  inject_Z (c - 1) < q -> q <= inject_Z c -> Qceiling q = c.
Proof.
  intros Hlo Hhi. apply Z.le_antisymm.
  - rewrite <- (Qceiling_Z c). now apply Qceiling_resp_le.
  - assert (H : (c - 1 < Qceiling q)%Z).
    { rewrite Zlt_Qlt. eapply Qlt_le_trans; [exact Hlo|apply Qle_ceiling]. }
    lia.
Qed.

(** X2.  For m >= 0 whose fractional part covers a whole number z of the D
    feature dimensions, and ceil(m) <= N, the embedding has N - ceil(m) rows
    of floor(m) * D + z entries; row i is frames i .. i + floor(m) - 1
    flattened, followed by the first z entries of frame i + floor(m). *)
Theorem embedded_space_rows (X : array2) (m : Q) (z : Z) :
  wf X -> 0 <= m ->
  mod1 m * inject_Z (Z.of_nat (shape1 X)) == inject_Z z ->
  (Qceiling m <= Z.of_nat (shape0 X))%Z ->
  exists E,
    embedded_space X m = Ok E /\ wf E /\
    shape0 E = (shape0 X - Z.to_nat (Qceiling m))%nat /\
    ncols E = (Z.to_nat (Qfloor m) * ncols X + Z.to_nat z)%nat /\
    forall i, (i < shape0 E)%nat ->
      nth i (rows E) []
      = concat (firstn (Z.to_nat (Qfloor m)) (skipn i (rows X)))
        ++ firstn (Z.to_nat z) (nth (i + Z.to_nat (Qfloor m)) (rows X) []).
Proof.
  intros Hwf Hm Hz Hce.
  destruct (embedded_space_shape Hwf Hm Hz Hce) as [E [HE [HwfE [H0 H1]]]].
  exists E. split; [exact HE|]. split; [exact HwfE|].
  split; [exact H0|]. split; [exact H1|].
  intros i Hi. rewrite (embedded_space_whole Hwf Hm Hz Hce) in HE.
  inversion HE; subst E. cbn [rows]. unfold shape0 in Hi. cbn [rows] in Hi.
  rewrite length_map, length_seq in Hi.
  rewrite nth_indep
    with (d' := embedded_row X (Z.to_nat (Qfloor m)) (Z.to_nat z) 0)
    by (now rewrite length_map, length_seq).
  rewrite (map_nth (embedded_row X (Z.to_nat (Qfloor m)) (Z.to_nat z))).
  now rewrite seq_nth.
Qed.

Lemma embedded_space_rows_witness :
  wf W32 /\ 0 <= 3 # 2 /\
  exists E,
    embedded_space W32 (3 # 2) = Ok E /\ wf E /\
    shape0 E = (shape0 W32 - Z.to_nat (Qceiling (3 # 2)))%nat /\
    ncols E = (Z.to_nat (Qfloor (3 # 2)) * ncols W32 + Z.to_nat 1)%nat /\
    forall i, (i < shape0 E)%nat ->
      nth i (rows E) []
      = concat (firstn (Z.to_nat (Qfloor (3 # 2))) (skipn i (rows W32)))
        ++ firstn (Z.to_nat 1)
                  (nth (i + Z.to_nat (Qfloor (3 # 2))) (rows W32) []).
Proof.
  assert (H : wf W32) by repeat constructor.
  split; [exact H|]. split; [discriminate|].
  apply (embedded_space_rows (X := W32) (m := 3 # 2) (z := 1) H).
  - discriminate.
  - reflexivity.
  - discriminate.
Defined.

(** X3.  Let m >= 0 be the float num / 2^j with D * num below 2^53, so
    that the products [X.shape[1] * m] and [(m % 1) * X.shape[1]] of lines
    112 and 116 are computed without rounding, and let ceil(m) < N.
    Whenever (m mod 1) * D is not a whole number the embedding raises
    ValueError: the row built is one entry shorter than the row allocated.
    The exception is a built row of a single entry, which numpy
    broadcasts. *)
Theorem embedded_space_mismatch (X : array2) (m : Q) (num : Z) (j : nat) :
  wf X -> 0 <= m ->
  m == inject_Z num / inject_Z (2 ^ Z.of_nat j) -> (j <= 1022)%nat ->
  (Z.of_nat (shape1 X) * num < 2 ^ 53)%Z ->
  (Qceiling m < Z.of_nat (shape0 X))%Z ->
  (forall z, ~ mod1 m * inject_Z (Z.of_nat (shape1 X)) == inject_Z z) ->
  (Qfloor m * Z.of_nat (shape1 X)
   + Qfloor (mod1 m * inject_Z (Z.of_nat (shape1 X))) <> 1)%Z ->
  embedded_space X m = Raise ValueError.
Proof.
  intros Hwf Hm _ _ _ Hce Hfrac Hone. unfold embedded_space.
  set (D := shape1 X) in *. set (n := shape0 X) in *.
  set (r := mod1 m * inject_Z (Z.of_nat D)) in *.
  assert (Hfl0 : (0 <= Qfloor m)%Z)
    by (rewrite <- (Qfloor_Z 0); apply Qfloor_resp_le; exact Hm).
  assert (Hflce : (Qfloor m <= Qceiling m)%Z)
    by (rewrite Zle_Qle; apply Qle_floor_ceiling).
  destruct (mod1_range m) as [Hf0 Hf1].
  assert (HD0 : 0 <= inject_Z (Z.of_nat D))
    by (change 0 with (inject_Z 0); rewrite <- Zle_Qle; lia).
  assert (Hr0 : 0 <= r) by (now apply Qmult_le_0_compat).
  assert (HrD : r <= inject_Z (Z.of_nat D)).
  { unfold r. rewrite <- (Qmult_1_l (inject_Z (Z.of_nat D))) at 2.
    apply Qmult_le_compat_r; [now apply Qlt_le_weak|exact HD0]. }
  assert (Hz0 : (0 <= Qfloor r)%Z)
    by (rewrite <- (Qfloor_Z 0); apply Qfloor_resp_le; exact Hr0).
  assert (HzD : (Qfloor r <= Z.of_nat D)%Z).
  { rewrite <- (Qfloor_Z (Z.of_nat D)). now apply Qfloor_resp_le. }
  assert (Hlt : inject_Z (Qfloor r) < r).
  { pose proof (Qfloor_le r) as Hle. apply Qle_lt_or_eq in Hle.
    destruct Hle as [Hle|Hle]; [exact Hle|].
    exfalso. apply (Hfrac (Qfloor r)). symmetry. exact Hle. }
  assert (Hw : Qceiling (inject_Z (Z.of_nat D) * m)
               = (Qfloor m * Z.of_nat D + Qfloor r + 1)%Z).
  { assert (E : inject_Z (Z.of_nat D) * m
                == inject_Z (Qfloor m * Z.of_nat D) + r)
      by (rewrite inject_Z_mult; unfold r, mod1; ring).
    apply Qceiling_unique; rewrite E.
    - replace (Qfloor m * Z.of_nat D + Qfloor r + 1 - 1)%Z
        with (Qfloor m * Z.of_nat D + Qfloor r)%Z by lia.
      rewrite inject_Z_plus. lra.
    - pose proof (Qlt_floor r) as Hup. rewrite !inject_Z_plus.
      rewrite inject_Z_plus in Hup. lra. }
  rewrite Hw, (int_floor Hr0), (int_floor Hm).
  destruct (Z.ltb_spec (Z.of_nat n - Qceiling m) 0); [lia|].
  destruct (Z.ltb_spec (Qfloor m * Z.of_nat D + Qfloor r + 1) 0); [nia|].
  cbn [orb].
  destruct (Z.to_nat (Z.of_nat n - Qceiling m)) as [|k] eqn:Hk; [lia|].
  cbn [seq mapM].
  set (fl := Z.to_nat (Qfloor m)) in *.
  assert (Hi2 : (0 + fl < length (rows X))%nat) by (unfold n, shape0 in *; lia).
  replace (Z.of_nat 0 + Qfloor m)%Z with (Z.of_nat (0 + fl)) by lia.
  rewrite slice_in_range by lia.
  rewrite (index_in_range [] _ Hi2). cbn [bind].
  assert (Hrow : length (nth (0 + fl) (rows X) []) = D).
  { unfold wf in Hwf. rewrite Forall_forall in Hwf. apply Hwf. now apply nth_In. }
  assert (Hs : slice_to (nth (0 + fl) (rows X) []) (Qfloor r)
               = firstn (Z.to_nat (Qfloor r)) (nth (0 + fl) (rows X) [])).
  { unfold slice_to. rewrite <- (Z2Nat.id (Qfloor r) Hz0) at 1.
    rewrite (slice_in_range _ (a := 0)) by lia. now rewrite Nat.sub_0_r. }
  rewrite Hs. replace (0 + fl - 0)%nat with fl by lia.
  fold (embedded_row X fl (Z.to_nat (Qfloor r)) 0).
  assert (Hlen : length (embedded_row X fl (Z.to_nat (Qfloor r)) 0)
                 = (fl * D + Z.to_nat (Qfloor r))%nat).
  { apply length_embedded_row; [exact Hwf|unfold shape0; lia|].
    unfold D, shape1 in HzD. lia. }
  unfold assign_row. rewrite Hlen.
  destruct (Nat.eqb_spec (fl * D + Z.to_nat (Qfloor r))
              (Z.to_nat (Qfloor m * Z.of_nat D + Qfloor r + 1))) as [E|_]; [nia|].
  destruct (embedded_row X fl (Z.to_nat (Qfloor r)) 0) as [|x [|y t]] eqn:Er.
  - reflexivity.
  - exfalso. cbn [length] in Hlen. apply Hone.
    apply (f_equal Z.of_nat) in Hlen.
    rewrite Nat2Z.inj_add, Nat2Z.inj_mul in Hlen. unfold fl in Hlen.
    rewrite !Z2Nat.id in Hlen by assumption. lia.
  - reflexivity.
Qed.

Lemma embedded_space_mismatch_witness :
  wf R3 /\ 5 # 4 == inject_Z 5 / inject_Z (2 ^ Z.of_nat 2) /\
  (Z.of_nat (shape1 R3) * 5 < 2 ^ 53)%Z /\
  embedded_space R3 (5 # 4) = Raise ValueError.
Proof.
  assert (H : wf R3) by repeat constructor.
  assert (Hm : 5 # 4 == inject_Z 5 / inject_Z (2 ^ Z.of_nat 2)) by reflexivity.
  assert (Hb : (Z.of_nat (shape1 R3) * 5 < 2 ^ 53)%Z) by reflexivity.
  split; [exact H|]. split; [exact Hm|]. split; [exact Hb|].
  apply (@embedded_space_mismatch R3 (5 # 4) 5 2 H).
  - discriminate.
  - exact Hm.
  - lia.
  - exact Hb.
  - reflexivity.
  - intros z Hz. unfold Qeq in Hz. cbn in Hz. lia.
  - discriminate.
Defined.

(** ** More on the boundary assembly *)

Section Bounds.

Context {lib : Library}.
Hypothesis contract : library_contract lib.

(** Past 20 frames the boundaries are the peaks of a novelty curve with one
    entry per embedded frame, shifted by ceil(m / 2). *)
Lemma est_bounds_peaks (cfg : config) (F : array2) :
  wf F -> (20 < shape0 F)%nat -> embeddable (m_embedded cfg) F ->
  exists nc,
    length nc = (shape0 F - Z.to_nat (Qceiling (m_embedded cfg)))%nat /\
    est_bounds cfg F
    = Ok (map (fun p => (Z.of_nat p + Qceiling (m_embedded cfg / 2))%Z)
              (filter (is_peak nc (threshold nc (Mp_adaptive cfg) (offset_thres cfg)))
                      (seq 1 (length nc - 1 - 1)))).
Proof.
  intros Hwf Hlong [Hm [[z Hz] Hce]]. unfold est_bounds.
  destruct (Nat.ltb_spec 20 (shape0 F)) as [_|Hshort]; [|lia].
  set (m := m_embedded cfg) in *.
  destruct (@embedded_space_shape F m z Hwf Hm Hz) as [E [HE [HwfE [HE0 _]]]];
    [lia|].
  rewrite HE. cbn [bind].
  set (R := librosa_recurrence_matrix _ _).
  destruct (recurrence_square contract (transpose E)
              (k_nearest cfg * inject_Z (Z.of_nat (shape0 F)))) as [HRsq HR0].
  fold R in HRsq, HR0.
  destruct (circular_shift_square HRsq) as [L [HL [HLsq HL0]]].
  rewrite HL. cbn [bind].
  destruct (gaussian_filter_columns contract (transpose L) (M_gaussian cfg))
    as [SF1 [HSF1 [Hwf1 [H10 _]]]].
  rewrite HSF1. cbn [bind].
  destruct (gaussian_filter_rows contract 1 Hwf1) as [SF [HSF [_ [HSF0 _]]]].
  rewrite HSF. cbn [bind].
  assert (HN : shape0 SF = (shape0 F - Z.to_nat (Qceiling m))%nat).
  { rewrite HSF0, H10. destruct (transpose_shape L) as [_ [-> _]].
    destruct HLsq as [_ ->]. rewrite HL0, HR0.
    destruct (transpose_shape E) as [_ [_ ->]]. exact HE0. }
  assert (Hce0 : (0 <= Qceiling m)%Z)
    by (rewrite <- (Qceiling_Z 0); apply Qceiling_resp_le; exact Hm).
  destruct (@compute_nc_length lib SF) as [nc [Hnc Hlen]]; [lia|].
  rewrite Hnc. cbn [bind].
  rewrite pick_peaks_filter by apply (median_length contract). cbn [bind].
  exists nc. split; [congruence|reflexivity].
Qed.

(** X1.  Past 20 frames, with N' = N - ceil(m) embedded frames and
    c = ceil(m / 2), the boundaries that [process] derives from the peaks
    are strictly increasing frame indices between 1 + c and N' - 2 + c, no
    two of them consecutive, and there are at most (N' - 1) / 2 of them. *)
Theorem est_bounds_spacing (cfg : config) (F : array2) :
  wf F -> (20 < shape0 F)%nat -> embeddable (m_embedded cfg) F ->
  exists bs,
    est_bounds cfg F = Ok bs /\ StronglySorted Z.lt bs /\
    (forall b, In b bs ->
       (1 + Qceiling (m_embedded cfg / 2) <= b
        <= Z.of_nat (shape0 F) - Qceiling (m_embedded cfg) - 2
           + Qceiling (m_embedded cfg / 2))%Z) /\
    (forall b, In b bs -> ~ In (b + 1)%Z bs) /\
    (2 * Z.of_nat (length bs)
     <= Z.of_nat (shape0 F) - Qceiling (m_embedded cfg) - 1)%Z.
Proof.
  intros Hwf Hlong Hemb.
  destruct (est_bounds_peaks cfg Hwf Hlong Hemb) as [nc [Hlen Hbs]].
  destruct Hemb as [Hm [_ Hce]].
  set (m := m_embedded cfg) in *. set (c := Qceiling (m / 2)) in *.
  set (th := threshold nc (Mp_adaptive cfg) (offset_thres cfg)) in *.
  set (peaks := filter (is_peak nc th) (seq 1 (length nc - 1 - 1))) in *.
  assert (Hce0 : (0 <= Qceiling m)%Z)
    by (rewrite <- (Qceiling_Z 0); apply Qceiling_resp_le; exact Hm).
  assert (Hp : forall i, In i peaks ->
            (1 <= i)%nat /\ (i + 2 <= length nc)%nat /\
            nth (i - 1) nc 0 < nth i nc 0 /\ nth (i + 1) nc 0 < nth i nc 0).
  { intros i Hi. apply filter_In in Hi. destruct Hi as [Hi Hpk].
    apply in_seq in Hi. unfold is_peak in Hpk.
    rewrite !andb_true_iff, !ltb_lt in Hpk. repeat split; try lia; tauto. }
  assert (Hgap : forall i, In i peaks -> ~ In (S i) peaks).
  { intros i Hi Hs. apply Hp in Hi. apply Hp in Hs.
    destruct Hi as [_ [_ [_ Hdown]]]. destruct Hs as [_ [_ [Hup _]]].
    rewrite Nat.add_1_r in Hdown. replace (S i - 1)%nat with i in Hup by lia.
    exact (Qlt_irrefl _ (Qlt_trans _ _ _ Hdown Hup)). }
  eexists. split; [exact Hbs|]. split; [|split; [|split]].
  - apply sorted_map with (R := lt) (P := fun _ => True).
    + intros a b _ _ Hab. lia.
    + apply Forall_forall. auto.
    + apply filter_sorted, seq_sorted.
  - intros b Hb. apply in_map_iff in Hb. destruct Hb as [p [<- Hin]].
    apply Hp in Hin. lia.
  - intros b Hb Hb1. apply in_map_iff in Hb. destruct Hb as [p [<- Hin]].
    apply in_map_iff in Hb1. destruct Hb1 as [q [Hq Hin1]].
    assert (q = S p) by lia. subst q. exact (Hgap p Hin Hin1).
  - rewrite length_map.
    assert (Hcount : (2 * length peaks <= length nc - 1)%nat).
    { destruct (length nc) as [|[|k]] eqn:Hn; [reflexivity|reflexivity|].
      pose proof (@sorted_gap_count peaks 1 k) as Hc.
      assert (Hb : (2 * length peaks <= k + 2 - 1)%nat).
      { apply Hc.
        - apply filter_sorted, seq_sorted.
        - intros i Hi. apply Hp in Hi. lia.
        - exact Hgap. }
      lia. }
    lia.
Qed.

End Bounds.

Lemma est_bounds_F24 : est_bounds cfg0 F24 = Ok [7%Z; 16%Z].
Proof. vm_compute. reflexivity. Qed.

Lemma est_bounds_spacing_witness :
  wf F24 /\ (20 < shape0 F24)%nat /\ embeddable (m_embedded cfg0) F24 /\
  exists bs,
    est_bounds cfg0 F24 = Ok bs /\ StronglySorted Z.lt bs /\
    (forall b, In b bs ->
       (1 + Qceiling (m_embedded cfg0 / 2) <= b
        <= Z.of_nat (shape0 F24) - Qceiling (m_embedded cfg0) - 2
           + Qceiling (m_embedded cfg0 / 2))%Z) /\
    (forall b, In b bs -> ~ In (b + 1)%Z bs) /\
    (2 * Z.of_nat (length bs)
     <= Z.of_nat (shape0 F24) - Qceiling (m_embedded cfg0) - 1)%Z.
Proof.
  assert (Hwf : wf F24) by repeat constructor.
  assert (Hlong : (20 < shape0 F24)%nat) by (vm_compute; lia).
  assert (Hemb : embeddable (m_embedded cfg0) F24).
  { split; [discriminate|]. split; [exists 0%Z; reflexivity|reflexivity]. }
  repeat (split; [assumption|]).
  exact (est_bounds_spacing reference_library_contract cfg0 Hwf Hlong Hemb).
Defined.

(** ** The Gaussian kernel and the self-similarity matrix *)

Lemma combine_seq_map {A : Type} (g : nat -> A) (a n : nat) :
  combine (seq a n) (map g (seq a n)) = map (fun i => (i, g i)) (seq a n).
Proof.
  revert a. induction n as [|n IH]; intros a; simpl; [reflexivity|].
  f_equal. apply IH.
Qed.

Lemma map_by_index {A B : Type} (d : A) (F : A -> B) (l : list A) :
  map F l = map (fun i => F (nth i l d)) (seq 0 (length l)).
Proof.
  rewrite <- (list_tabulate d l) at 1. now rewrite map_map.
Qed.

Lemma negate_block_tabulate (n m : nat) (f : nat -> nat -> Q) (r0 r1 c0 c1 : nat) :
  negate_block (tabulate n m f) r0 r1 c0 c1
  = tabulate n m (fun i j =>
                    if (r0 <=? i)%nat && (i <? r1)%nat && (c0 <=? j)%nat && (j <? c1)%nat
                    then - f i j else f i j).
Proof.
  unfold negate_block. rewrite shape0_tabulate. unfold tabulate. cbn [rows ncols].
  f_equal. rewrite combine_seq_map, map_map. apply map_ext. intros i.
  cbn [fst snd]. rewrite length_map, length_seq.
  rewrite combine_seq_map, map_map. reflexivity.
Qed.

Section Kernel.

Context {sp : SciPy}.

(** X12.  When the window has M entries g, the kernel is the M x M matrix
    of the products g[i] * g[j] with the sign changed exactly on the block
    of rows M/2 and after and columns before M/2.  The second assignment of
    the function selects the columns from M on, that is none, so the block
    of rows before M/2 and columns M/2 and after keeps its sign. *)
Theorem compute_gaussian_krnl_entries (M : Z) :
  Z.of_nat (length (signal_gaussian M (inject_Z M / 3))) = M ->
  compute_gaussian_krnl M
  = tabulate (Z.to_nat M) (Z.to_nat M)
      (fun i j =>
         let g := signal_gaussian M (inject_Z M / 3) in
         if (Z.to_nat (M / 2) <=? i)%nat && (j <? Z.to_nat (M / 2))%nat
         then - (nth i g 0 * nth j g 0) else nth i g 0 * nth j g 0).
Proof.
  intros Hlen. unfold compute_gaussian_krnl.
  set (g := signal_gaussian M (inject_Z M / 3)) in *.
  set (n := length g) in *.
  assert (HM : Z.to_nat M = n) by lia.
  assert (HG : mk2 n (map (fun a => map (fun b => a * b) g) g)
               = tabulate n n (fun i j => nth i g 0 * nth j g 0)).
  { unfold tabulate. f_equal. rewrite (map_by_index 0). fold n.
    apply map_ext. intros i. rewrite (map_by_index 0). reflexivity. }
  assert (Hnc : forall f, ncols (tabulate n n f) = n) by reflexivity.
  assert (Hh : (0 <= M / 2 <= M)%Z).
  { split; [apply Z.div_pos; lia|]. apply Z.div_le_upper_bound; lia. }
  assert (Hc : clip (Z.of_nat n) (M / 2) = (M / 2)%Z).
  { unfold clip. destruct (Z.ltb_spec (M / 2) 0); lia. }
  assert (Hc1 : clip (Z.of_nat n) (M / 1) = Z.of_nat n).
  { unfold clip. rewrite Z.div_1_r. destruct (Z.ltb_spec M 0); lia. }
  cbv zeta. rewrite HG. rewrite !shape0_tabulate, !Hnc.
  rewrite negate_block_tabulate, Hnc, negate_block_tabulate.
  rewrite Hc, Hc1, Nat2Z.id, HM.
  apply tabulate_ext. intros i j Hi Hj.
  destruct (Nat.leb_spec n j); [lia|]. rewrite andb_false_r. cbn [andb].
  destruct (Nat.ltb_spec i n); [|lia]. rewrite andb_true_r.
  now rewrite andb_true_r.
Qed.

(** X13.  When the distances are non-negative and one of them is positive,
    the self-similarity matrix has the shape of the distance matrix, the
    entry of a distance d is 1 - d / max, it lies between 0 and 1, it is 1
    for a zero distance and 0 for the largest distance. *)
Theorem compute_ssm_range (X : array2) :
  Forall (Forall (fun d => 0 <= d)) (rows (distance_squareform_pdist X)) ->
  (exists d, In d (concat (rows (distance_squareform_pdist X))) /\ 0 < d) ->
  exists S mx,
    compute_ssm X = Ok S /\
    amax (concat (rows (distance_squareform_pdist X))) = Ok mx /\ 0 < mx /\
    shape0 S = shape0 (distance_squareform_pdist X) /\
    ncols S = ncols (distance_squareform_pdist X) /\
    forall i j d,
      get2 (distance_squareform_pdist X) i j = Ok d ->
      exists s,
        get2 S i j = Ok s /\ s == 1 - d / mx /\ 0 <= s /\ s <= 1 /\
        (d == 0 -> s == 1) /\ (d == mx -> s == 0).
Proof.
  intros Hpos [d0 [Hd0 Hd0pos]]. unfold compute_ssm.
  set (D := distance_squareform_pdist X) in *.
  destruct (amax_spec (a := concat (rows D))) as [mx [Hmx [Hmx_in Hmx_le]]].
  { intros E. rewrite E in Hd0. exact Hd0. }
  assert (Hmx_pos : 0 < mx)
    by (eapply Qlt_le_trans; [exact Hd0pos|apply Hmx_le; exact Hd0]).
  rewrite Hmx. cbn [bind]. do 2 eexists. split; [reflexivity|].
  split; [reflexivity|]. split; [exact Hmx_pos|].
  split; [unfold shape0; cbn [rows]; now rewrite length_map|].
  split; [reflexivity|].
  intros i j d Hget. unfold get2 in *. cbn [rows].
  rewrite nth_error_map.
  destruct (nth_error (rows D) i) as [r|] eqn:Hr; [|discriminate].
  cbn [option_map]. rewrite nth_error_map.
  destruct (nth_error r j) as [v|] eqn:Hv; [|discriminate].
  inversion Hget; subst v. cbn [option_map].
  assert (Hin : In d (concat (rows D))).
  { apply in_concat. exists r. split; eapply nth_error_In; eassumption. }
  assert (Hd : 0 <= d).
  { rewrite Forall_forall in Hpos. apply nth_error_In in Hr.
    specialize (Hpos r Hr). rewrite Forall_forall in Hpos.
    apply Hpos. eapply nth_error_In; eassumption. }
  assert (Hq0 : 0 <= d / mx) by (apply Qle_shift_div_l; [exact Hmx_pos|lra]).
  assert (Hq1 : d / mx <= 1).
  { apply Qle_shift_div_r; [exact Hmx_pos|]. apply Hmx_le in Hin. lra. }
  eexists. split; [reflexivity|]. split; [reflexivity|].
  split; [lra|]. split; [lra|]. split.
  - intros E. rewrite E. unfold Qdiv. rewrite Qmult_0_l. reflexivity.
  - intros E. rewrite E. unfold Qdiv. rewrite Qmult_inv_r; [reflexivity|].
    intros E0. rewrite E0 in Hmx_pos. exact (Qlt_irrefl _ Hmx_pos).
Qed.

End Kernel.

Lemma compute_gaussian_krnl_entries_witness :
  Z.of_nat (length (bell_window 4 (inject_Z 4 / 3))) = 4%Z /\
  compute_gaussian_krnl 4
  = tabulate (Z.to_nat 4) (Z.to_nat 4)
      (fun i j =>
         let g := bell_window 4 (inject_Z 4 / 3) in
         if (Z.to_nat (4 / 2) <=? i)%nat && (j <? Z.to_nat (4 / 2))%nat
         then - (nth i g 0 * nth j g 0) else nth i g 0 * nth j g 0).
Proof.
  split; [reflexivity|].
  apply (compute_gaussian_krnl_entries (sp := reference_scipy) (M := 4%Z)).
  reflexivity.
Defined.

Lemma compute_ssm_range_witness :
  exists S mx,
    compute_ssm X3 = Ok S /\
    amax (concat (rows (cityblock_matrix X3))) = Ok mx /\ 0 < mx /\
    shape0 S = shape0 (cityblock_matrix X3) /\
    ncols S = ncols (cityblock_matrix X3) /\
    forall i j d,
      get2 (cityblock_matrix X3) i j = Ok d ->
      exists s,
        get2 S i j = Ok s /\ s == 1 - d / mx /\ 0 <= s /\ s <= 1 /\
        (d == 0 -> s == 1) /\ (d == mx -> s == 0).
Proof.
  apply (compute_ssm_range (sp := reference_scipy) X3).
  - cbn [distance_squareform_pdist reference_scipy]. unfold cityblock_matrix.
    cbn [rows]. apply Forall_forall. intros r Hr. apply in_map_iff in Hr.
    destruct Hr as [u [<- _]]. apply Forall_forall. intros d Hd.
    apply in_map_iff in Hd. destruct Hd as [v [<- _]]. apply cityblock_nonneg.
  - exists 3. split; [vm_compute; tauto|reflexivity].
Defined.

(** ** The C-NMF module: the most frequent label *)

Section Argmax.

Variable A : Type.
Variable lt : A -> A -> bool.
Variable d : A.
Hypothesis lt_le_trans :
  forall a b c, lt b a = false -> lt b c = true -> lt a c = true.
Hypothesis lt_asym : forall a b, lt a b = true -> lt b a = false.

Lemma lt_irrefl (a : A) : lt a a = false.
Proof.
  destruct (lt a a) eqn:E; [|reflexivity]. now rewrite (lt_asym E) in E.
Qed.

Lemma argmax_from_spec (l pre : list A) (best_i : nat) (best : A) :
  (best_i < length pre)%nat -> nth best_i pre d = best ->
  (forall j, (j < length pre)%nat -> lt best (nth j pre d) = false) ->
  (forall j, (j < best_i)%nat -> lt (nth j pre d) best = true) ->
  let r := Cnmf3.argmax_from lt best_i best (length pre) l in
  (r < length (pre ++ l))%nat /\
  (forall j, (j < length (pre ++ l))%nat ->
     lt (nth r (pre ++ l) d) (nth j (pre ++ l) d) = false) /\
  (forall j, (j < r)%nat -> lt (nth j (pre ++ l) d) (nth r (pre ++ l) d) = true).
Proof.
  revert pre best_i best. induction l as [|a t IH]; intros pre best_i best Hi Hb Hle Hlt.
  - cbn [Cnmf3.argmax_from]. rewrite app_nil_r. subst best. auto.
  - cbn [Cnmf3.argmax_from].
    replace (pre ++ a :: t) with ((pre ++ [a]) ++ t) by (now rewrite <- app_assoc).
    assert (Hlen : length (pre ++ [a]) = S (length pre))
      by (rewrite length_app; simpl; lia).
    assert (Hold : forall j, (j < length pre)%nat ->
              nth j (pre ++ [a]) d = nth j pre d)
      by (intros j Hj; now apply app_nth1).
    assert (Hnew : nth (length pre) (pre ++ [a]) d = a)
      by (rewrite app_nth2, Nat.sub_diag by lia; reflexivity).
    rewrite <- Hlen. destruct (lt best a) eqn:E.
    + apply IH.
      * lia.
      * exact Hnew.
      * intros j Hj. rewrite Hlen in Hj.
        destruct (Nat.eq_dec j (length pre)) as [->|Hne].
        -- rewrite Hnew. apply lt_irrefl.
        -- rewrite Hold by lia. apply lt_asym.
           apply lt_le_trans with (b := best); [apply Hle; lia|exact E].
      * intros j Hj. rewrite Hold by lia.
        apply lt_le_trans with (b := best); [apply Hle; lia|exact E].
    + apply IH.
      * lia.
      * rewrite Hold by lia. exact Hb.
      * intros j Hj. rewrite Hlen in Hj.
        destruct (Nat.eq_dec j (length pre)) as [->|Hne].
        -- rewrite Hnew. exact E.
        -- rewrite Hold by lia. apply Hle. lia.
      * intros j Hj. rewrite Hold by lia. now apply Hlt.
Qed.

(** [np.argmax] of a non-empty list: an index of the list, no entry exceeds
    the entry there, and every earlier entry is smaller. *)
Lemma argmax_spec (l : list A) :
  l <> [] ->
  exists r,
    Cnmf3.argmax lt l = Ok r /\ (r < length l)%nat /\
    (forall j, (j < length l)%nat -> lt (nth r l d) (nth j l d) = false) /\
    (forall j, (j < r)%nat -> lt (nth j l d) (nth r l d) = true).
Proof.
  destruct l as [|a t]; [congruence|]. intros _.
  exists (Cnmf3.argmax_from lt 0 a 1 t). split; [reflexivity|].
  apply (@argmax_from_spec t [a] 0%nat a).
  - simpl. lia.
  - reflexivity.
  - intros j Hj. simpl in Hj. replace j with 0%nat by lia. apply lt_irrefl.
  - intros j Hj. lia.
Qed.

End Argmax.

Lemma argmax_nat (l : list nat) :
  l <> [] ->
  exists r,
    Cnmf3.argmax Nat.ltb l = Ok r /\ (r < length l)%nat /\
    (forall j, (j < length l)%nat -> (nth j l 0 <= nth r l 0)%nat) /\
    (forall j, (j < r)%nat -> (nth j l 0 < nth r l 0)%nat).
Proof.
  intros Hl. destruct (@argmax_spec nat Nat.ltb 0%nat) with (l := l)
    as [r [Hr [Hlt [Hmax Hfirst]]]]; try assumption.
  - intros a b c H1 H2. apply Nat.ltb_ge in H1. apply Nat.ltb_lt in H2.
    apply Nat.ltb_lt. lia.
  - intros a b H. apply Nat.ltb_lt in H. apply Nat.ltb_ge. lia.
  - exists r. split; [exact Hr|]. split; [exact Hlt|]. split.
    + intros j Hj. apply Nat.ltb_ge. now apply Hmax.
    + intros j Hj. apply Nat.ltb_lt. now apply Hfirst.
Qed.

Lemma argmax_Q (l : list Q) :
  l <> [] ->
  exists r,
    Cnmf3.argmax ltb l = Ok r /\ (r < length l)%nat /\
    (forall j, (j < length l)%nat -> nth j l 0 <= nth r l 0) /\
    (forall j, (j < r)%nat -> nth j l 0 < nth r l 0).
Proof.
  assert (Hge : forall a b, ltb a b = false <-> b <= a).
  { intros a b. unfold ltb. rewrite negb_false_iff. apply Qle_bool_iff. }
  intros Hl. destruct (@argmax_spec Q ltb 0) with (l := l)
    as [r [Hr [Hlt [Hmax Hfirst]]]]; try assumption.
  - intros a b c H1 H2. apply Hge in H1. apply ltb_lt in H2. apply ltb_lt.
    eapply Qle_lt_trans; eassumption.
  - intros a b H. apply ltb_lt in H. apply Hge. now apply Qlt_le_weak.
  - exists r. split; [exact Hr|]. split; [exact Hlt|]. split.
    + intros j Hj. apply Hge. now apply Hmax.
    + intros j Hj. apply ltb_lt. now apply Hfirst.
Qed.

Lemma fold_max_bound (x : list Z) :
  (forall v, In v x -> (v <= fold_right Z.max (-1) x)%Z) /\
  (x <> [] -> In (fold_right Z.max (-1)%Z x) x \/ (fold_right Z.max (-1) x = -1)%Z).
Proof.
  induction x as [|a x [IH1 IH2]]; simpl.
  - split; [intros v []|congruence].
  - split.
    + intros v [<-|Hv]; [lia|]. apply IH1 in Hv. lia.
    + intros _. destruct x as [|b x'].
      * simpl. destruct (Z.max_spec a (-1)) as [[_ ->]|[_ ->]]; auto.
      * destruct IH2 as [H|H]; [discriminate| |].
        -- destruct (Z.max_spec a (fold_right Z.max (-1)%Z (b :: x')))
             as [[_ E]|[_ E]]; rewrite E; auto.
        -- rewrite H. destruct (Z.max_spec a (-1)) as [[_ ->]|[_ ->]]; auto.
Qed.

(** X14.  On a non-empty list of non-negative integers [most_frequent]
    returns an entry of the list that no value outnumbers, the smallest
    one of those; the empty list and a negative entry raise ValueError. *)
Theorem most_frequent_mode (x : list Z) :
  Cnmf3.most_frequent [] = Raise ValueError /\
  ((exists v, In v x /\ (v < 0)%Z) -> Cnmf3.most_frequent x = Raise ValueError) /\
  (x <> [] -> Forall (fun v => (0 <= v)%Z) x ->
   exists v,
     Cnmf3.most_frequent x = Ok v /\ In v x /\
     (forall w, (count_occ Z.eq_dec x w <= count_occ Z.eq_dec x v)%nat) /\
     (forall w, count_occ Z.eq_dec x w = count_occ Z.eq_dec x v -> (v <= w)%Z)).
Proof.
  split; [reflexivity|]. split.
  - intros [v [Hin Hneg]]. unfold Cnmf3.most_frequent, Cnmf3.bincount.
    assert (E : existsb (fun v => (v <? 0)%Z) x = true).
    { apply existsb_exists. exists v. split; [exact Hin|]. now apply Z.ltb_lt. }
    now rewrite E.
  - intros Hne Hpos. unfold Cnmf3.most_frequent, Cnmf3.bincount.
    assert (E : existsb (fun v => (v <? 0)%Z) x = false).
    { destruct (existsb _ x) eqn:Ex; [|reflexivity].
      apply existsb_exists in Ex. destruct Ex as [v [Hin Hv]].
      apply Z.ltb_lt in Hv. rewrite Forall_forall in Hpos.
      apply Hpos in Hin. lia. }
    rewrite E. cbn [bind].
    set (mx := fold_right Z.max (-1)%Z x).
    destruct (fold_max_bound x) as [Hub Hin_mx].
    fold mx in Hub, Hin_mx.
    assert (Hmx : In mx x).
    { destruct (Hin_mx Hne) as [H|H]; [exact H|].
      destruct x as [|a x']; [congruence|].
      assert (Ha : (0 <= a)%Z) by (inversion Hpos; assumption).
      pose proof (Hub a (or_introl eq_refl)). lia. }
    assert (Hmx0 : (0 <= mx)%Z)
      by (rewrite Forall_forall in Hpos; now apply Hpos).
    set (c := map (fun v => count_occ Z.eq_dec x (Z.of_nat v))
                  (seq 0 (Z.to_nat (mx + 1)))).
    assert (Hlen : length c = Z.to_nat (mx + 1))
      by (unfold c; now rewrite length_map, length_seq).
    assert (Hnth : forall j, (j < length c)%nat ->
              nth j c 0%nat = count_occ Z.eq_dec x (Z.of_nat j)).
    { intros j Hj. unfold c.
      rewrite nth_indep with (d' := count_occ Z.eq_dec x (Z.of_nat 0))
        by (fold c; exact Hj).
      rewrite (map_nth (fun v => count_occ Z.eq_dec x (Z.of_nat v))).
      rewrite seq_nth by lia. reflexivity. }
    destruct (@argmax_nat c) as [r [Hr [Hrlt [Hmax Hfirst]]]].
    { intros Ec. rewrite Ec in Hlen. simpl in Hlen. lia. }
    rewrite Hr. cbn [bind]. exists (Z.of_nat r). split; [reflexivity|].
    assert (Hcount : forall w, (count_occ Z.eq_dec x w
                                <= count_occ Z.eq_dec x (Z.of_nat r))%nat).
    { intros w. destruct (in_dec Z.eq_dec w x) as [Hw|Hw].
      - assert (Hw0 : (0 <= w <= mx)%Z).
        { split; [rewrite Forall_forall in Hpos; now apply Hpos|now apply Hub]. }
        assert (Hj : (Z.to_nat w < length c)%nat) by lia.
        pose proof (Hmax _ Hj) as Hle. rewrite !Hnth in Hle by assumption.
        rewrite Z2Nat.id in Hle by lia. exact Hle.
      - apply (count_occ_not_In Z.eq_dec) in Hw. rewrite Hw. lia. }
    split; [|split].
    + apply (count_occ_In Z.eq_dec). pose proof (Hcount mx) as Hle.
      apply (count_occ_In Z.eq_dec) in Hmx. lia.
    + exact Hcount.
    + intros w Hw.
      assert (Hwin : In w x).
      { apply (count_occ_In Z.eq_dec). rewrite Hw.
        pose proof (Hcount mx) as Hle.
        apply (count_occ_In Z.eq_dec) in Hmx. lia. }
      assert (Hw0 : (0 <= w)%Z) by (rewrite Forall_forall in Hpos; now apply Hpos).
      destruct (Z_lt_le_dec w (Z.of_nat r)) as [Hlt|Hge]; [|exact Hge].
      exfalso. assert (Hj : (Z.to_nat w < r)%nat) by lia.
      pose proof (Hfirst _ Hj) as Hs. rewrite !Hnth in Hs by lia.
      rewrite Z2Nat.id in Hs by lia. lia.
Qed.

Lemma most_frequent_mode_witness :
  Cnmf3.most_frequent [2; 1; 2; 3; 1]%Z = Ok 1%Z /\
  exists v,
    Cnmf3.most_frequent [2; 1; 2; 3; 1]%Z = Ok v /\ In v [2; 1; 2; 3; 1]%Z /\
    (forall w, (count_occ Z.eq_dec [2; 1; 2; 3; 1]%Z w
                <= count_occ Z.eq_dec [2; 1; 2; 3; 1]%Z v)%nat) /\
    (forall w, count_occ Z.eq_dec [2; 1; 2; 3; 1]%Z w
               = count_occ Z.eq_dec [2; 1; 2; 3; 1]%Z v -> (v <= w)%Z).
Proof.
  split; [reflexivity|].
  destruct (most_frequent_mode [2; 1; 2; 3; 1]%Z) as [_ [_ H]].
  apply H.
  - discriminate.
  - repeat (constructor; [lia|]). constructor.
Defined.

(** ** The C-NMF module: the activation matrix *)

Lemma inject_Z_plus_eq (a b : Z) : inject_Z a + inject_Z b = inject_Z (a + b).
Proof. unfold Qplus, inject_Z. simpl. f_equal. lia. Qed.

Lemma sum_one_hot (z : Z) (k : nat) (l : list nat) (a : Z) :
  NoDup l ->
  fold_left Qplus (map (fun j => if (j =? k)%nat then inject_Z z else 0) l)
            (inject_Z a)
  = inject_Z (if in_dec Nat.eq_dec k l then a + z else a).
Proof.
  revert a. induction l as [|j l IH]; intros a Hnd; [reflexivity|].
  inversion Hnd as [|? ? Hnotin Hnd']; subst. cbn [map fold_left].
  destruct (Nat.eqb_spec j k) as [->|Hne].
  - rewrite inject_Z_plus_eq, IH by exact Hnd'.
    destruct (in_dec Nat.eq_dec k l) as [Hin|_]; [contradiction|].
    destruct (in_dec Nat.eq_dec k (k :: l)) as [_|Hn]; [reflexivity|].
    exfalso. apply Hn. left. reflexivity.
  - change 0 with (inject_Z 0). rewrite inject_Z_plus_eq, Z.add_0_r.
    rewrite IH by exact Hnd'.
    destruct (in_dec Nat.eq_dec k l) as [Hin|Hnin];
      destruct (in_dec Nat.eq_dec k (j :: l)) as [Hin'|Hnin']; try reflexivity.
    + exfalso. apply Hnin'. right. exact Hin.
    + exfalso. destruct Hin' as [E|Hin']; [now apply Hne|contradiction].
Qed.

Lemma one_hot_sums (c : nat) (idx : list nat) :
  Forall (fun k => (k < c)%nat) idx ->
  map (fun r => fold_left Qplus r 0)
      (map (fun k => map (fun j => if (j =? k)%nat
                                   then inject_Z (Z.of_nat k + 1) else 0)
                         (seq 0 c))
           idx)
  = map (fun k => inject_Z (Z.of_nat k + 1)) idx.
Proof.
  induction 1 as [|k ks Hk _ IH]; [reflexivity|].
  cbn [map]. rewrite IH. f_equal.
  change (fold_left Qplus
            (map (fun j => if (j =? k)%nat then inject_Z (Z.of_nat k + 1) else 0)
                 (seq 0 c)) 0)
    with (fold_left Qplus
            (map (fun j => if (j =? k)%nat then inject_Z (Z.of_nat k + 1) else 0)
                 (seq 0 c)) (inject_Z 0)).
  rewrite (sum_one_hot (Z.of_nat k + 1) k 0 (seq_NoDup c 0)).
  destruct (in_dec Nat.eq_dec k (seq 0 c)) as [_|Hn]; [reflexivity|].
  exfalso. apply Hn. apply in_seq. lia.
Qed.

Lemma Forall2_right {A B : Type} (P : A -> B -> Prop) (Q' : B -> Prop)
      (l1 : list A) (l2 : list B) :
  (forall a b, P a b -> Q' b) -> Forall2 P l1 l2 -> Forall Q' l2.
Proof.
  intros H HF. induction HF; constructor; eauto.
Qed.

Lemma concat_singletons (rs : list (list Q)) :
  Forall (fun r => length r = 1%nat) rs ->
  concat rs = map (fun r => nth 0 r 0) rs.
Proof.
  induction 1 as [|r rs Hr _ IH]; [reflexivity|].
  cbn [concat map]. rewrite IH.
  destruct r as [|a [|b t]]; try discriminate. reflexivity.
Qed.

Section Activation.

Context {lib : Library}.
Hypothesis contract : library_contract lib.

Lemma filter_activation_matrix_spec (G : array2) (R : Z) :
  wf G ->
  ((ncols G = 0)%nat -> Cnmf3.filter_activation_matrix G R = Raise ValueError) /\
  ((1 <= ncols G)%nat ->
   exists idx,
     length idx = shape0 G /\
     Forall2 (fun r k =>
                (k < ncols G)%nat /\
                (forall j, (j < ncols G)%nat -> nth j r 0 <= nth k r 0) /\
                (forall j, (j < k)%nat -> nth j r 0 < nth k r 0))
             (rows G) idx /\
     Cnmf3.filter_activation_matrix G R
     = Ok (filters_median_filter
             (map (fun k => inject_Z (Z.of_nat k + 1)) idx) R)).
Proof.
  intros Hwf. split.
  - intros H0. unfold Cnmf3.filter_activation_matrix. now rewrite H0.
  - intros H1. unfold Cnmf3.filter_activation_matrix.
    destruct (Nat.eqb_spec (ncols G) 0) as [E|_]; [lia|].
    assert (Hidx : exists idx,
      mapM (Cnmf3.argmax ltb) (rows G) = Ok idx /\
      Forall2 (fun r k =>
                 (k < ncols G)%nat /\
                 (forall j, (j < ncols G)%nat -> nth j r 0 <= nth k r 0) /\
                 (forall j, (j < k)%nat -> nth j r 0 < nth k r 0))
              (rows G) idx).
    { unfold wf in Hwf. revert Hwf. generalize (rows G) as rs.
      induction rs as [|r rs IH]; intros Hwf.
      - exists []. split; [reflexivity|constructor].
      - inversion Hwf as [|? ? Hr Hrs]; subst.
        destruct (IH Hrs) as [idx [Hm HF]].
        destruct (@argmax_Q r) as [k [Hk [Hlt [Hmax Hfirst]]]].
        { intros Er. rewrite Er in Hr. simpl in Hr. lia. }
        exists (k :: idx). split.
        + cbn [mapM]. rewrite Hk. cbn [bind]. rewrite Hm. reflexivity.
        + constructor; [|exact HF]. rewrite <- Hr. auto. }
    destruct Hidx as [idx [Hm HF]]. rewrite Hm. cbn [bind].
    exists idx. split; [symmetry; exact (Forall2_length HF)|].
    split; [exact HF|].
    assert (Hlt : Forall (fun k => (k < ncols G)%nat) idx).
    { eapply Forall2_right; [|exact HF]. intros a b Hab. apply Hab. }
    rewrite one_hot_sums by exact Hlt.
    set (v := map (fun k => inject_Z (Z.of_nat k + 1)) idx).
    assert (Hwfc : wf (mk2 1 (map (fun a => [a]) v))).
    { unfold wf. cbn [rows ncols]. apply Forall_forall. intros r Hr.
      apply in_map_iff in Hr. destruct Hr as [a [<- _]]. reflexivity. }
    destruct (median_filter_spec contract R Hwfc)
      as [Y [HY [HwfY [HY0 [HY1 Hcol]]]]].
    rewrite HY. cbn [bind]. f_equal.
    assert (Hc0 : col (mk2 1 (map (fun a => [a]) v)) 0 = v).
    { unfold col. cbn [rows]. rewrite map_map. cbn [nth]. apply map_id. }
    transitivity (col Y 0).
    + cbn [ncols] in HY1. unfold wf in HwfY. rewrite HY1 in HwfY.
      unfold col. now apply concat_singletons.
    + rewrite (Hcol 0%nat) by (cbn [ncols]; lia). now rewrite Hc0.
Qed.

(** X15.  On a well-formed activation matrix with at least one column,
    [filter_activation_matrix] is the library median filter applied to the
    list that holds, for each row, 1 + the position of its first largest
    entry; without columns it raises ValueError. *)
Theorem filter_activation_matrix_argmax (G : array2) (R : Z) :
  wf G ->
  ((ncols G = 0)%nat -> Cnmf3.filter_activation_matrix G R = Raise ValueError) /\
  ((1 <= ncols G)%nat ->
   exists idx,
     length idx = shape0 G /\
     Forall2 (fun r k =>
                (k < ncols G)%nat /\
                (forall j, (j < ncols G)%nat -> nth j r 0 <= nth k r 0) /\
                (forall j, (j < k)%nat -> nth j r 0 < nth k r 0))
             (rows G) idx /\
     Cnmf3.filter_activation_matrix G R
     = Ok (filters_median_filter
             (map (fun k => inject_Z (Z.of_nat k + 1)) idx) R)).
Proof.
  exact (@filter_activation_matrix_spec G R).
Qed.

(** The filtered labels are one per row of the activation matrix. *)
Lemma filter_activation_matrix_length (G : array2) (R : Z) (out : list Q) :
  wf G -> Cnmf3.filter_activation_matrix G R = Ok out -> length out = shape0 G.
Proof.
  intros Hwf Hout. destruct (Nat.eq_dec (ncols G) 0) as [E|E].
  - destruct (filter_activation_matrix_spec R Hwf) as [H0 _].
    rewrite (H0 E) in Hout. discriminate.
  - destruct (filter_activation_matrix_spec R Hwf) as [_ H1].
    destruct H1 as [idx [Hlen [_ Heq]]]; [lia|].
    rewrite Heq in Hout. inversion Hout; subst.
    now rewrite (median_length contract), length_map.
Qed.

End Activation.

Lemma filter_activation_matrix_argmax_witness :
  wf G43 /\ (1 <= ncols G43)%nat /\
  Cnmf3.filter_activation_matrix G43 1 = Ok [1; 2; 3; 1] /\
  exists idx,
    length idx = shape0 G43 /\
    Forall2 (fun r k =>
               (k < ncols G43)%nat /\
               (forall j, (j < ncols G43)%nat -> nth j r 0 <= nth k r 0) /\
               (forall j, (j < k)%nat -> nth j r 0 < nth k r 0))
            (rows G43) idx /\
    Cnmf3.filter_activation_matrix G43 1
    = Ok (filters_median_filter
            (map (fun k => inject_Z (Z.of_nat k + 1)) idx) 1).
Proof.
  assert (Hwf : wf G43) by repeat constructor.
  split; [exact Hwf|]. split; [simpl; lia|]. split; [reflexivity|].
  destruct (filter_activation_matrix_argmax reference_library_contract 1 Hwf)
    as [_ H].
  apply H. simpl. lia.
Defined.

(** ** The C-NMF module: labels, the search for boundaries, [process] *)

Lemma mapM_keeps_length {A B : Type} (f : A -> result B) (l : list A) (ys : list B) :
  mapM f l = Ok ys -> length ys = length l.
Proof.
  revert ys; induction l as [|x l IH]; simpl; intros ys H.
  - inversion H; reflexivity.
  - destruct (f x); simpl in H; [|discriminate].
    destruct (mapM f l); simpl in H; [|discriminate].
    inversion H; subst; simpl. f_equal. apply IH. reflexivity.
Qed.

Lemma length_bound_inters (bs : list Z) :
  length (combine (slice bs 0 (-1)) (Cnmf3.slice_from bs 1)) = (length bs - 1)%nat.
Proof.
  rewrite length_combine. unfold Cnmf3.slice_from, slice, clip.
  cbn [Z.ltb Z.compare]. rewrite !length_firstn, !length_skipn.
  destruct (Z.ltb_spec (Z.of_nat (length bs)) 0); lia.
Qed.

Section LabelsAux.

Context {lib : Library} {py : Pymf}.

Lemma compute_labels_count_aux (X : array2) (rank R : Z) (bs : list Z) (niter : Z)
      (labels : list Z) :
  Cnmf3.compute_labels X rank R bs niter = Ok labels ->
  length labels = (length bs - 1)%nat \/ labels = [1%Z].
Proof.
  unfold Cnmf3.compute_labels.
  destruct (Cnmf3.cnmf X rank niter false) as [FG|e].
  - destruct (Cnmf3.filter_activation_matrix _ _); [|discriminate].
    cbn [bind]. intros H. apply mapM_keeps_length in H. left.
    now rewrite H, length_bound_inters.
  - intros H. inversion H. now right.
Qed.

End LabelsAux.

Section Labels.

Context {lib : Library} {py : Pymf}.

(** X16.  When the factorization raises, [compute_labels] returns the single
    label 1 however many boundaries it was given; otherwise, whenever it
    returns, it returns one label per pair of successive boundaries. *)
Theorem compute_labels_count (X : array2) (rank R : Z) (bs : list Z) (niter : Z) :
  (forall e, Cnmf3.cnmf X rank niter false = Raise e ->
             Cnmf3.compute_labels X rank R bs niter = Ok [1%Z]) /\
  (forall FG labels,
      Cnmf3.cnmf X rank niter false = Ok FG ->
      Cnmf3.compute_labels X rank R bs niter = Ok labels ->
      length labels = (length bs - 1)%nat).
Proof.
  unfold Cnmf3.compute_labels. split.
  - intros e He. now rewrite He.
  - intros FG labels HFG. rewrite HFG.
    destruct (Cnmf3.filter_activation_matrix _ _); [|discriminate].
    cbn [bind]. intros H. apply mapM_keeps_length in H.
    now rewrite H, length_bound_inters.
Qed.

(** X17.  If every factorization gives at most two distinct change points,
    the loop of [get_segmentation] never ends: no number of rounds
    suffices. *)
Theorem find_bounds_diverges (X : array2) (R niter : Z) :
  (forall rank, exists FG G,
      Cnmf3.cnmf X rank niter false = Ok FG /\
      Cnmf3.filter_activation_matrix (transpose (snd FG)) R = Ok G /\
      (length (nodup Z.eq_dec (Cnmf3.change_points G)) <= 2)%nat) ->
  forall fuel rank rank_labels R_labels in_labels,
    Cnmf3.find_bounds fuel X rank R niter None = None /\
    Cnmf3.get_segmentation fuel X rank R rank_labels R_labels niter None in_labels
    = None.
Proof.
  intros H fuel rank rank_labels R_labels in_labels.
  assert (Hf : forall rank', Cnmf3.find_bounds fuel X rank' R niter None = None).
  { induction fuel as [|fuel IH]; intros rank'; [reflexivity|].
    cbn [Cnmf3.find_bounds].
    destruct (H rank') as [FG [G [HFG [HG Hle]]]].
    rewrite HFG, HG. cbn [bind].
    destruct (Nat.leb_spec (length (nodup Z.eq_dec (Cnmf3.change_points G))) 2);
      [apply IH|lia]. }
  split; [apply Hf|]. unfold Cnmf3.get_segmentation. now rewrite Hf.
Qed.

(** X18.  Whatever the number of rounds, a result of [get_segmentation] is
    either the fallback (no boundaries, the label 1) or boundaries that
    begin with 0, end with N - 1 and hold more than two distinct values in
    between; in the second case the labels are one per interval, all 1 when
    [in_labels] is given, or the single label 1 of [compute_labels]. *)
Theorem get_segmentation_result (fuel : nat) (X : array2)
        (rank R rank_labels R_labels niter : Z)
        (bound_idxs in_labels : option (list Z)) (b l : list Z) :
  Cnmf3.get_segmentation fuel X rank R rank_labels R_labels niter
                         bound_idxs in_labels = Some (Ok (b, l)) ->
  (b = [] /\ l = [1%Z]) \/
  (exists bs,
      b = [0%Z] ++ bs ++ [(Z.of_nat (shape1 X) - 1)%Z] /\
      (2 < length (nodup Z.eq_dec bs))%nat /\
      (in_labels <> None -> l = repeat 1%Z (length b - 1)) /\
      (length l = (length b - 1)%nat \/ l = [1%Z])).
Proof.
  unfold Cnmf3.get_segmentation.
  assert (Hf : forall fuel rank bound_idxs bs,
            Cnmf3.find_bounds fuel X rank R niter bound_idxs = Some (Ok (Cnmf3.Bounds bs)) ->
            (2 < length (nodup Z.eq_dec bs))%nat).
  { clear. induction fuel as [|fuel IH]; intros rank bound_idxs bs; [discriminate|].
    cbn [Cnmf3.find_bounds].
    destruct bound_idxs as [bs0|].
    - destruct (Nat.leb_spec (length (nodup Z.eq_dec bs0)) 2) as [Hle|Hgt].
      + apply IH.
      + intros E. inversion E; subst. exact Hgt.
    - destruct (Cnmf3.cnmf X rank niter false) as [FG|e]; [|discriminate].
      destruct (Cnmf3.filter_activation_matrix _ _) as [G|e]; [|discriminate].
      cbn [bind].
      destruct (Nat.leb_spec (length (nodup Z.eq_dec (Cnmf3.change_points G))) 2)
        as [Hle|Hgt].
      + apply IH.
      + intros E. inversion E; subst. exact Hgt. }
  destruct (Cnmf3.find_bounds fuel X rank R niter bound_idxs)
    as [[[bs|]|e]|] eqn:Hfb; try discriminate.
  - intros Hres. right. exists bs.
    set (b0 := [0%Z] ++ bs ++ [(Z.of_nat (shape1 X) - 1)%Z]) in *.
    destruct in_labels as [il|].
    + cbn [bind] in Hres. inversion Hres; subst b l.
      split; [reflexivity|]. split; [exact (Hf _ _ _ _ Hfb)|].
      split; [reflexivity|]. left. apply repeat_length.
    + destruct (Cnmf3.compute_labels X rank_labels R_labels b0 300) as [ls|e] eqn:Hc;
        [|discriminate].
      cbn [bind] in Hres. inversion Hres; subst b l.
      split; [reflexivity|]. split; [exact (Hf _ _ _ _ Hfb)|].
      split; [congruence|].
      destruct (compute_labels_count_aux X rank_labels R_labels b0 300 Hc)
        as [E|E]; auto.
  - intros Hres. inversion Hres; subst. left. auto.
Qed.

End Labels.

Lemma compute_labels_count_witness :
  Cnmf3.compute_labels (py := pymf_raises) X210 6 11 [0; 3; 5; 9]%Z 300 = Ok [1%Z] /\
  (forall labels,
      Cnmf3.compute_labels (py := pymf_constant) X210 6 11 [0; 3; 5; 9]%Z 300
      = Ok labels -> length labels = 3%nat).
Proof.
  split.
  - apply (compute_labels_count (py := pymf_raises) X210 6 11 [0; 3; 5; 9]%Z 300)
      with (e := ValueError). reflexivity.
  - intros labels H.
    destruct (compute_labels_count (py := pymf_constant) X210 6 11 [0; 3; 5; 9]%Z 300)
      as [_ Hc].
    exact (Hc _ _ eq_refl H).
Defined.

Lemma find_bounds_diverges_witness :
  Cnmf3.find_bounds (py := pymf_constant) 1000 X210 3 1 300 None = None /\
  Cnmf3.get_segmentation (py := pymf_constant) 1000 X210 3 1 6 11 300 None None
  = None.
Proof.
  apply (find_bounds_diverges (lib := reference_library) (py := pymf_constant)
           X210 1 300).
  intros rank. do 2 eexists. split; [reflexivity|]. split; [reflexivity|].
  simpl. lia.
Defined.

Lemma get_segmentation_result_witness :
  Cnmf3.get_segmentation (py := pymf_raises) 1 X210 3 15 6 11 300
                         (Some [3; 5; 7]%Z) (Some [])
  = Some (Ok ([0; 3; 5; 7; 9]%Z, [1; 1; 1; 1]%Z)) /\
  (([0; 3; 5; 7; 9]%Z = [] /\ [1; 1; 1; 1]%Z = [1%Z]) \/
   (exists bs,
       [0; 3; 5; 7; 9]%Z = [0%Z] ++ bs ++ [(Z.of_nat (shape1 X210) - 1)%Z] /\
       (2 < length (nodup Z.eq_dec bs))%nat /\
       (Some (@nil Z) <> None ->
        [1; 1; 1; 1]%Z = repeat 1%Z (length [0; 3; 5; 7; 9]%Z - 1)) /\
       (length [1; 1; 1; 1]%Z = (length [0; 3; 5; 7; 9]%Z - 1)%nat \/
        [1; 1; 1; 1]%Z = [1%Z]))).
Proof.
  split; [reflexivity|].
  apply (get_segmentation_result (lib := reference_library) (py := pymf_raises)
           1 X210 3 15 6 11 300 (Some [3; 5; 7]%Z) (Some [])).
  reflexivity.
Defined.

Lemma imax_spec (l : list Z) (mx : Z) :
  Cnmf3.imax l = Ok mx -> l <> [] /\ forall x, In x l -> (x <= mx)%Z.
Proof.
  destruct l as [|a t]; [discriminate|]. simpl. intros H. inversion H; subst.
  split; [discriminate|]. clear H.
  assert (Hg : forall b, (b <= fold_left Z.max t b)%Z /\
                         forall x, In x t -> (x <= fold_left Z.max t b)%Z).
  { induction t as [|c t IH]; intros b; simpl.
    - split; [lia|intros x []].
    - destruct (IH (Z.max b c)) as [H1 H2]. split; [lia|].
      intros x [<-|Hx]; [lia|auto]. }
  destruct (Hg a) as [H1 H2].
  intros x [Hx|Hx]; [subst x; exact H1|exact (H2 x Hx)].
Qed.

Section CnmfProcess.

Context {lib : Library} {py : Pymf} {itf : SegmenterInterface}.

(** X19.  For fewer frames than [h], [process] assembles the two times 0
    and [dur] with the three labels 2, 1, 2, whatever the frame times and
    the other inputs, and returns what [_postprocess] makes of them. *)
Theorem cnmf_process_short_track (fuel : nat) (cfg : Cnmf3.config) (F : array2)
        (frame_times : list Q) (dur : Q) (bound_idxs in_labels : option (list Z)) :
  (Z.of_nat (shape0 F) < Cnmf3.h cfg)%Z ->
  Cnmf3.process_estimates fuel cfg F frame_times dur bound_idxs in_labels
  = Some (Ok ([0; dur], [2; 1; 2]%Z)) /\
  Cnmf3.process fuel cfg F frame_times dur bound_idxs in_labels
  = Some (_postprocess [0; dur] [2; 1; 2]).
Proof.
  intros H.
  assert (E : Cnmf3.process_estimates fuel cfg F frame_times dur bound_idxs in_labels
              = Some (Ok ([0; dur], [2; 1; 2]%Z))).
  { unfold Cnmf3.process_estimates.
    destruct (Z.leb_spec (Cnmf3.h cfg) (Z.of_nat (shape0 F))); [lia|reflexivity]. }
  split; [exact E|]. unfold Cnmf3.process. rewrite E. reflexivity.
Qed.

(** X20.  Whenever [process] assembles its estimates, the times begin with
    0 and end with [dur], and the labels are the segment labels between two
    copies of a silence label that is larger than every segment label. *)
Theorem cnmf_process_silence_label (fuel : nat) (cfg : Cnmf3.config) (F : array2)
        (frame_times : list Q) (dur : Q) (bound_idxs in_labels : option (list Z))
        (times : list Q) (labels : list Z) :
  Cnmf3.process_estimates fuel cfg F frame_times dur bound_idxs in_labels
  = Some (Ok (times, labels)) ->
  exists ts inner s,
    times = [0] ++ ts ++ [dur] /\ labels = [s] ++ inner ++ [s] /\
    inner <> [] /\ (forall x, In x inner -> (x < s)%Z) /\ ~ In s inner.
Proof.
  unfold Cnmf3.process_estimates.
  set (seg := if (Cnmf3.h cfg <=? Z.of_nat (shape0 F))%Z then _ else _).
  destruct seg as [[[bs est]|e]|]; try discriminate.
  destruct (mapM (index frame_times) bs) as [ts|e]; [|discriminate].
  cbn [bind]. destruct (Cnmf3.imax est) as [mx|e] eqn:Hmx; [|discriminate].
  cbn [bind]. intros H. inversion H; subst.
  destruct (imax_spec _ Hmx) as [Hne Hle].
  exists ts, est, (mx + 1)%Z. repeat split; try assumption.
  - intros x Hx. apply Hle in Hx. lia.
  - intros Hin. apply Hle in Hin. lia.
Qed.

End CnmfProcess.

Lemma cnmf_process_short_track_witness :
  (Z.of_nat (shape0 R3) < Cnmf3.h cnmf_cfg0)%Z /\
  Cnmf3.process_estimates (py := pymf_raises) 0 cnmf_cfg0 R3 [] 9 None None
  = Some (Ok ([0; 9], [2; 1; 2]%Z)) /\
  Cnmf3.process (py := pymf_raises) (itf := raw_estimates) 0 cnmf_cfg0 R3 [] 9
                None None
  = Some (Ok ([0; 9], [2; 1; 2])).
Proof.
  assert (H : (Z.of_nat (shape0 R3) < Cnmf3.h cnmf_cfg0)%Z) by reflexivity.
  split; [exact H|].
  exact (cnmf_process_short_track (lib := reference_library) (py := pymf_raises)
           (itf := raw_estimates) 0 cnmf_cfg0 R3 [] 9 None None H).
Defined.

Lemma cnmf_process_silence_label_witness :
  Cnmf3.process_estimates (py := pymf_raises) 1 cnmf_cfg0 F102 (ramp 0 10) 10
                          (Some [3; 5; 7]%Z) (Some [])
  = Some (Ok ([0; 0; 3; 5; 7; 9; 10], [2; 1; 1; 1; 1; 2]%Z)) /\
  exists ts inner s,
    [0; 0; 3; 5; 7; 9; 10] = [0] ++ ts ++ [10] /\
    [2; 1; 1; 1; 1; 2]%Z = [s] ++ inner ++ [s] /\
    inner <> [] /\ (forall x, In x inner -> (x < s)%Z) /\ ~ In s inner.
Proof.
  assert (H : Cnmf3.process_estimates (py := pymf_raises) 1 cnmf_cfg0 F102
                (ramp 0 10) 10 (Some [3; 5; 7]%Z) (Some [])
              = Some (Ok ([0; 0; 3; 5; 7; 9; 10], [2; 1; 1; 1; 1; 2]%Z)))
    by (vm_compute; reflexivity).
  split; [exact H|].
  exact (cnmf_process_silence_label (lib := reference_library) (py := pymf_raises)
           1 cnmf_cfg0 F102 (ramp 0 10) 10 (Some [3; 5; 7]%Z) (Some []) H).
Defined.

(** ** The OLDA module *)



Lemma insert_unique_spec (x : Z) (l : list Z) :
  StronglySorted Z.lt l ->
  StronglySorted Z.lt (Olda.insert_unique x l) /\
  forall y, In y (Olda.insert_unique x l) <-> y = x \/ In y l.
Proof.
  induction 1 as [|a l Hs IH Ha]; cbn [Olda.insert_unique].
  - split; [repeat constructor|]. intros y. simpl. intuition.
  - destruct IH as [IHs IHin]. rewrite Forall_forall in Ha.
    destruct (Z.ltb_spec x a) as [Hlt|Hge].
    + split.
      * constructor; [constructor; [exact Hs|now apply Forall_forall]|].
        apply Forall_forall. intros y [<-|Hy]; [exact Hlt|].
        apply Ha in Hy. lia.
      * intros y. simpl. intuition.
    + destruct (Z.eqb_spec x a) as [->|Hne].
      * split; [constructor; [exact Hs|now apply Forall_forall]|].
        intros y. simpl. intuition.
      * split.
        -- constructor; [exact IHs|]. apply Forall_forall. intros y Hy.
           apply IHin in Hy. destruct Hy as [->|Hy]; [lia|now apply Ha].
        -- intros y. simpl. rewrite IHin. intuition.
Qed.

Lemma unique_spec (l : list Z) :
  StronglySorted Z.lt (Olda.unique l) /\
  forall y, In y (Olda.unique l) <-> In y l.
Proof.
  induction l as [|x l [IHs IHin]]; cbn [Olda.unique fold_right].
  - split; [constructor|]. intros y. reflexivity.
  - fold (Olda.unique l). destruct (insert_unique_spec x IHs) as [Hs Hin].
    split; [exact Hs|]. intros y. rewrite Hin, IHin. simpl. intuition.
Qed.

Lemma sorted_head_last (l : list Z) (lo hi : Z) :
  StronglySorted Z.lt l -> In lo l -> In hi l ->
  (forall y, In y l -> (lo <= y <= hi)%Z) ->
  hd_error l = Some lo /\ last l 0%Z = hi.
Proof.
  intros Hs. revert lo hi. induction Hs as [|a l Hs IH Ha]; intros lo hi Hlo Hhi Hb.
  - destruct Hlo.
  - rewrite Forall_forall in Ha. split.
    + simpl. f_equal. destruct Hlo as [E|Hlo]; [exact E|].
      apply Ha in Hlo. pose proof (Hb a (or_introl eq_refl)). lia.
    + destruct l as [|b l'].
      * simpl. destruct Hhi as [E|[]]. exact E.
      * change (last (a :: b :: l') 0%Z) with (last (b :: l') 0%Z).
        assert (Hhi' : In hi (b :: l')).
        { destruct Hhi as [E|Hhi]; [|exact Hhi]. subst a.
          pose proof (Ha b (or_introl eq_refl)).
          pose proof (Hb b (or_intror (or_introl eq_refl))). lia. }
        destruct (IH b hi (or_introl eq_refl) Hhi') as [_ Hl]; [|exact Hl].
        intros y Hy. split.
        -- destruct Hy as [<-|Hy]; [lia|].
           apply StronglySorted_inv in Hs. destruct Hs as [_ Hbl].
           rewrite Forall_forall in Hbl. apply Hbl in Hy. lia.
        -- apply Hb. right. exact Hy.
Qed.

Section OldaSegments.

Context {ag : Agglomerative}.

(** X22.  The boundaries of [get_k_segments] are strictly increasing and
    are exactly 0, the number of frames n and the boundaries of the
    clustering; when the latter lie between 0 and n the list begins with 0
    and ends with n. *)
Theorem get_k_segments_boundaries (X : array2) (k : Z) :
  StronglySorted Z.lt (fst (Olda.get_k_segments X k)) /\
  (forall y, In y (fst (Olda.get_k_segments X k)) <->
             y = 0%Z \/ y = Z.of_nat (shape1 X) \/ In y (librosa_agglomerative X k)) /\
  ((forall y, In y (librosa_agglomerative X k) -> (0 <= y <= Z.of_nat (shape1 X))%Z) ->
   hd_error (fst (Olda.get_k_segments X k)) = Some 0%Z /\
   last (fst (Olda.get_k_segments X k)) 0%Z = Z.of_nat (shape1 X)).
Proof.
  unfold Olda.get_k_segments. cbn [fst].
  set (n := Z.of_nat (shape1 X)).
  set (raw := [0%Z] ++ librosa_agglomerative X k ++ [n]).
  destruct (unique_spec raw) as [Hs Hin].
  assert (Hmem : forall y, In y (Olda.unique raw) <->
            y = 0%Z \/ y = n \/ In y (librosa_agglomerative X k)).
  { intros y. rewrite Hin. unfold raw. cbn [app]. simpl.
    rewrite in_app_iff. simpl. intuition. }
  split; [exact Hs|]. split; [exact Hmem|].
  intros Hrange. apply sorted_head_last.
  - exact Hs.
  - apply Hmem. auto.
  - apply Hmem. auto.
  - intros y Hy. apply Hmem in Hy. destruct Hy as [->|[->|Hy]].
    + unfold n. lia.
    + unfold n. lia.
    + now apply Hrange.
Qed.

Lemma descending_cons (k0 : Z) (m : nat) :
  map (fun i => (k0 - Z.of_nat i)%Z) (seq 0 (S m))
  = k0 :: map (fun i => (k0 - 1 - Z.of_nat i)%Z) (seq 0 m).
Proof.
  cbn [seq map]. f_equal; [lia|].
  rewrite <- seq_shift, map_map. apply map_ext. intros i. lia.
Qed.

Lemma segments_loop_spec (X : array2) (m : nat) (k0 : Z) (c : Q) (Sb : list Z) :
  let cost := fun k => snd (Olda.get_k_segments X k) in
  let r := Olda.segments_loop X (map (fun i => (k0 - Z.of_nat i)%Z) (seq 0 m))
                              (Some c) Sb in
  (r = Sb /\ (m = 0%nat \/ ~ cost k0 < c)) \/
  (exists k, (k0 - Z.of_nat m < k <= k0)%Z /\
             r = fst (Olda.get_k_segments X k) /\ cost k0 < c /\
             (forall j, (k <= j < k0)%Z -> cost j < cost (j + 1)%Z) /\
             (k = (k0 - Z.of_nat m + 1)%Z \/ ~ cost (k - 1)%Z < cost k)).
Proof.
  cbv zeta. revert k0 c Sb. induction m as [|m IH]; intros k0 c Sb.
  - left. split; [reflexivity|now left].
  - rewrite descending_cons. cbn [Olda.segments_loop].
    destruct (ltb (snd (Olda.get_k_segments X k0)) c) eqn:E.
    + apply ltb_lt in E. right.
      destruct (IH (k0 - 1)%Z (snd (Olda.get_k_segments X k0))
                   (fst (Olda.get_k_segments X k0)))
        as [[Hr Hstop]|[k [Hk [Hr [Hc [Hchain Hend]]]]]].
      * exists k0. split; [lia|]. split; [exact Hr|]. split; [exact E|].
        split; [intros j Hj; lia|].
        destruct Hstop as [->|Hstop]; [left; lia|right; exact Hstop].
      * exists k. split; [lia|]. split; [exact Hr|]. split; [exact E|]. split.
        -- intros j Hj. destruct (Z.eq_dec j (k0 - 1)) as [->|Hne].
           ++ replace (k0 - 1 + 1)%Z with k0 by lia. exact Hc.
           ++ apply Hchain. lia.
        -- destruct Hend as [->|Hend]; [left; lia|right; exact Hend].
    + left. split; [reflexivity|]. right. intros H. apply ltb_lt in H. congruence.
Qed.

(** X23.  [get_segments] returns the empty list when kmax <= kmin.
    Otherwise it returns the boundaries of [get_k_segments] for the k at
    which the cost, followed from kmax downwards, stops decreasing: the
    costs decrease strictly from kmax down to k, and k is kmin + 1 or the
    cost at k - 1 is not smaller than the cost at k. *)
Theorem get_segments_first_minimum (X : array2) (kmin kmax : Z) :
  let cost := fun k => snd (Olda.get_k_segments X k) in
  ((kmax <= kmin)%Z -> Olda.get_segments X kmin kmax = []) /\
  ((kmin < kmax)%Z ->
   exists k, (kmin < k <= kmax)%Z /\
             Olda.get_segments X kmin kmax = fst (Olda.get_k_segments X k) /\
             (forall j, (k <= j < kmax)%Z -> cost j < cost (j + 1)%Z) /\
             (k = (kmin + 1)%Z \/ ~ cost (k - 1)%Z < cost k)).
Proof.
  cbv zeta. unfold Olda.get_segments, Olda.descending. split.
  - intros H. replace (Z.to_nat (kmax - kmin)) with 0%nat by lia. reflexivity.
  - intros H. destruct (Z.to_nat (kmax - kmin)) as [|m] eqn:Em; [lia|].
    rewrite descending_cons. cbn [Olda.segments_loop].
    destruct (segments_loop_spec X m (kmax - 1)
                (snd (Olda.get_k_segments X kmax))
                (fst (Olda.get_k_segments X kmax)))
      as [[Hr Hstop]|[k [Hk [Hr [Hc [Hchain Hend]]]]]].
    + exists kmax. split; [lia|]. split; [exact Hr|].
      split; [intros j Hj; lia|].
      destruct Hstop as [->|Hstop]; [left; lia|right; exact Hstop].
    + exists k. split; [lia|]. split; [exact Hr|]. split.
      * intros j Hj. destruct (Z.eq_dec j (kmax - 1)) as [->|Hne].
        -- replace (kmax - 1 + 1)%Z with kmax by lia. exact Hc.
        -- apply Hchain. lia.
      * destruct Hend as [->|Hend]; [left; lia|right; exact Hend].
Qed.

End OldaSegments.

Lemma get_k_segments_boundaries_witness :
  fst (Olda.get_k_segments (ag := even_split) X210 4) = [0; 2; 5; 7; 10]%Z /\
  hd_error (fst (Olda.get_k_segments (ag := even_split) X210 4)) = Some 0%Z /\
  last (fst (Olda.get_k_segments (ag := even_split) X210 4)) 0%Z
  = Z.of_nat (shape1 X210).
Proof.
  split; [reflexivity|].
  destruct (get_k_segments_boundaries (ag := even_split) X210 4) as [_ [_ H]].
  apply H. intros y Hy. vm_compute in Hy.
  destruct Hy as [<-|[<-|[<-|[]]]]; vm_compute; split; discriminate.
Defined.

Lemma get_segments_first_minimum_witness :
  (2 < 5)%Z /\
  exists k, (2 < k <= 5)%Z /\
            Olda.get_segments (ag := even_split) X210 2 5
            = fst (Olda.get_k_segments (ag := even_split) X210 k) /\
            (forall j, (k <= j < 5)%Z ->
               snd (Olda.get_k_segments (ag := even_split) X210 j)
               < snd (Olda.get_k_segments (ag := even_split) X210 (j + 1))) /\
            (k = (2 + 1)%Z \/
             ~ snd (Olda.get_k_segments (ag := even_split) X210 (k - 1))
               < snd (Olda.get_k_segments (ag := even_split) X210 k)).
Proof.
  split; [reflexivity|].
  destruct (get_segments_first_minimum (ag := even_split) X210 2 5) as [_ H].
  apply H. reflexivity.
Defined.

(** ** The plotting module *)

Module PlottingFacts.

Import String.

Lemma lookup_values (key v : string) :
  Plotting.lookup Plotting.translate_ids key = Some v ->
  Plotting.lookup Plotting.translate_ids v = None.
Proof.
  unfold Plotting.translate_ids. cbn [Plotting.lookup].
  repeat match goal with
         | |- context [String.eqb ?a key] => destruct (String.eqb a key)
         end;
    intros H; inversion H; reflexivity.
Qed.

Lemma translate_loop_ok (seen rest : list string) :
  (forall x, In x rest -> Plotting.lookup Plotting.translate_ids x <> None) ->
  exists vs,
    Plotting.translate_loop seen rest
    = Plotting.Translated (seen ++ vs) (("GT"%string :: nil) ++ seen ++ vs) /\
    List.length vs = List.length rest /\
    Forall2 (fun x v => Plotting.lookup Plotting.translate_ids x = Some v) rest vs.
Proof.
  revert seen. induction rest as [|x rest IH]; intros seen H.
  - exists []. rewrite app_nil_r. repeat split. constructor.
  - cbn [Plotting.translate_loop].
    destruct (Plotting.lookup Plotting.translate_ids x) as [v|] eqn:E.
    + destruct (IH (seen ++ [v])) as [vs [Hl [Hlen HF]]].
      { intros y Hy. apply H. right. exact Hy. }
      exists (v :: vs). rewrite Hl, <- !app_assoc. cbn [app].
      repeat split; [simpl; now rewrite Hlen|]. constructor; assumption.
    + exfalso. apply (H x); [left; reflexivity|exact E].
Qed.

(** X24.  When every id is a key of [translate_ids], the translation
    succeeds: the caller's list holds the translated ids, the local list is
    GT followed by them.  Called again on that same list, if it is not
    empty, it raises KeyError on its first entry and leaves the list as it
    is, since no translated id is itself a key. *)
Theorem translate_twice (algo_ids : list string) :
  algo_ids <> [] ->
  (forall x, In x algo_ids -> Plotting.lookup Plotting.translate_ids x <> None) ->
  exists vs,
    Plotting.translate_algo_ids algo_ids
    = Plotting.Translated vs ("GT"%string :: vs) /\
    List.length vs = List.length algo_ids /\
    Forall2 (fun x v => Plotting.lookup Plotting.translate_ids x = Some v)
            algo_ids vs /\
    Plotting.translate_algo_ids vs = Plotting.KeyError vs (hd ""%string vs).
Proof.
  intros Hne Hkeys. unfold Plotting.translate_algo_ids.
  destruct (translate_loop_ok [] algo_ids Hkeys) as [vs [Hl [Hlen HF]]].
  exists vs. cbn [app] in Hl. split; [exact Hl|]. split; [exact Hlen|].
  split; [exact HF|].
  destruct HF as [|x v xs vs' Hxv _]; [congruence|].
  cbn [Plotting.translate_loop hd]. now rewrite (lookup_values _ Hxv).
Qed.

Lemma translate_twice_witness :
  Plotting.translate_algo_ids ["sf"; "levy"; "cc"]%string
  = Plotting.Translated ["SF"; "CC"; "CC"]%string ["GT"; "SF"; "CC"; "CC"]%string /\
  exists vs,
    Plotting.translate_algo_ids ["sf"; "levy"; "cc"]%string
    = Plotting.Translated vs ("GT"%string :: vs) /\
    List.length vs = List.length ["sf"; "levy"; "cc"]%string /\
    Forall2 (fun x v => Plotting.lookup Plotting.translate_ids x = Some v)
            ["sf"; "levy"; "cc"]%string vs /\
    Plotting.translate_algo_ids vs = Plotting.KeyError vs (hd ""%string vs).
Proof.
  split; [reflexivity|].
  apply (translate_twice (algo_ids := ["sf"; "levy"; "cc"]%string)).
  - discriminate.
  - intros x [<-|[<-|[<-|[]]]]; discriminate.
Defined.

End PlottingFacts.

(** ** The C-NMF module: the boundaries that the factorization gives *)

Lemma change_points_sorted (G : list Q) :
  StronglySorted Z.lt (Cnmf3.change_points G) /\
  Forall (fun b => (1 <= b <= Z.of_nat (length G) - 1)%Z) (Cnmf3.change_points G).
Proof.
  unfold Cnmf3.change_points. split.
  - apply sorted_map with (R := lt) (P := fun _ => True).
    + intros a b _ _ Hab. lia.
    + apply Forall_forall. auto.
    + apply filter_sorted, seq_sorted.
  - apply Forall_forall. intros b Hb. apply in_map_iff in Hb.
    destruct Hb as [i [<- Hi]]. apply filter_In in Hi. destruct Hi as [Hi _].
    apply in_seq in Hi. lia.
Qed.

Section ComputedBounds.

Context {lib : Library} {py : Pymf}.
Hypothesis contract : library_contract lib.
Hypothesis factors : pymf_contract py.

(** X25.  Boundaries that the loop of [get_segmentation] computes itself
    (none were passed in) are strictly increasing frame indices between 1
    and N - 1, more than two of them; with the 0 before and the N - 1 after
    them they stay inside the N frames. *)
Theorem find_bounds_computed (fuel : nat) (X : array2) (rank R niter : Z)
        (bs : list Z) :
  Cnmf3.find_bounds fuel X rank R niter None = Some (Ok (Cnmf3.Bounds bs)) ->
  StronglySorted Z.lt bs /\
  Forall (fun b => (1 <= b <= Z.of_nat (shape1 X) - 1)%Z) bs /\
  (2 < length bs)%nat /\
  Forall (fun b => (0 <= b < Z.of_nat (shape1 X))%Z)
         ([0%Z] ++ bs ++ [(Z.of_nat (shape1 X) - 1)%Z]).
Proof.
  revert rank. induction fuel as [|fuel IH]; intros rank; [discriminate|].
  cbn [Cnmf3.find_bounds].
  destruct (Cnmf3.cnmf X rank niter false) as [[F G]|e] eqn:Hc; [|discriminate].
  cbn [snd].
  destruct (Cnmf3.filter_activation_matrix (transpose G) R) as [Gf|e] eqn:Hf;
    [|discriminate].
  cbn [bind].
  destruct (Nat.leb_spec (length (nodup Z.eq_dec (Cnmf3.change_points Gf))) 2)
    as [Hle|Hgt]; [apply IH|].
  intros E. inversion E; subst bs. clear E.
  assert (Hlen : length Gf = shape1 X).
  { destruct (transpose_shape G) as [Hwf [H0 _]].
    rewrite (filter_activation_matrix_length contract R Hwf Hf), H0.
    exact (factors _ _ _ _ Hc). }
  destruct (change_points_sorted Gf) as [Hs Hr]. rewrite Hlen in Hr.
  assert (H3 : (2 < length (Cnmf3.change_points Gf))%nat).
  { pose proof (NoDup_incl_length (NoDup_nodup Z.eq_dec (Cnmf3.change_points Gf))
                  (fun x Hx => proj1 (nodup_In Z.eq_dec _ x) Hx)). lia. }
  split; [exact Hs|]. split; [exact Hr|]. split; [exact H3|].
  assert (HN : (1 <= Z.of_nat (shape1 X) - 1)%Z).
  { destruct (Cnmf3.change_points Gf) as [|b t]; [simpl in H3; lia|].
    inversion Hr; subst. lia. }
  apply Forall_app. split; [constructor; [lia|constructor]|].
  apply Forall_app. split; [|constructor; [lia|constructor]].
  rewrite Forall_forall in *. intros b Hb. apply Hr in Hb. lia.
Qed.

End ComputedBounds.

Lemma pymf_blocks_contract : pymf_contract pymf_blocks.
Proof.
  intros hull S rank niter F G H. cbn [pymf_factorize pymf_blocks] in H.
  inversion H; subst. reflexivity.
Qed.

Lemma find_bounds_computed_witness :
  Cnmf3.find_bounds (py := pymf_blocks) 1 X210 3 1 300 None
  = Some (Ok (Cnmf3.Bounds [2; 4; 6; 8]%Z)) /\
  StronglySorted Z.lt [2; 4; 6; 8]%Z /\
  Forall (fun b => (1 <= b <= Z.of_nat (shape1 X210) - 1)%Z) [2; 4; 6; 8]%Z /\
  (2 < length [2; 4; 6; 8]%Z)%nat /\
  Forall (fun b => (0 <= b < Z.of_nat (shape1 X210))%Z)
         ([0%Z] ++ [2; 4; 6; 8]%Z ++ [(Z.of_nat (shape1 X210) - 1)%Z]).
Proof.
  assert (H : Cnmf3.find_bounds (py := pymf_blocks) 1 X210 3 1 300 None
              = Some (Ok (Cnmf3.Bounds [2; 4; 6; 8]%Z))) by reflexivity.
  split; [exact H|].
  exact (find_bounds_computed reference_library_contract pymf_blocks_contract
           1 X210 3 1 300 H).
Defined.
